(** * iceberg-go, [utils.go]: literal sets, row accessors, Avro schema translation

    A shallow embedding of the functions of [utils.go] and the properties
    their specification states about them.

    - [LiteralSets]: [literalSet] ([addliteral], [Add], [Contains],
      [Members], [Len]) over a Go map whose keys are compared with Go's [==].
    - [Accessors]: [accessor.Get] over rows of [any] values, with Go's
      run-time panics made explicit.
    - [AvroSchemas]: [nestedFieldToAvroSchema], [nestedFieldToAvroField] and
      [structTypeToAvroPartitionSchema].
    - [AvroEncode]: [avroEncode] as a state-passing function over the
      operations of the container-file encoder it drives. *)

From Stdlib Require Import List ZArith Bool String Ascii Strings.Byte Lia SpecFloat DecimalString.
From Stdlib Require Import Permutation.
Import ListNotations.
Local Open Scope Z_scope.
Set Warnings "-register-all,-notation-for-abbreviation".

(* ===================================================================== *)
(** * Literals *)
(* ===================================================================== *)

Module Literals.

(** Byte slices ([[]byte]) are lists of bytes. *)
Definition bytes := list byte.

Fixpoint bytes_eqb (a b : bytes) : bool :=
  match a, b with
  | [], [] => true
  | x :: a', y :: b' => Byte.eqb x y && bytes_eqb a' b'
  | _, _ => false
  end.

(** Modelled from the spec: the [Literal] implementations ([literals.go] is
    not part of the sources at hand).  The spec gives a tagged union over
    exactly these kinds, each carrying its payload: Boolean, Int32, Int64,
    Float32, Float64, String, Binary, Fixed, Date (days, 32-bit), Time
    (microseconds, 64-bit), Timestamp, TimestampTz, UUID (16 raw bytes).
    Integers are [Z] (the width plays no role below); the payload of a
    float is an IEEE 754 value, [spec_float], which has the zeros of both
    signs, the infinities and NaN.  A value of this type is a non-nil Go
    interface value; a [Literal] variable that may be nil is an
    [option Literal]. *)
Inductive Literal : Type :=
| BoolLiteral (v : bool)
| Int32Literal (v : Z)
| Int64Literal (v : Z)
| Float32Literal (v : spec_float)
| Float64Literal (v : spec_float)
| StringLiteral (v : string)
| BinaryLiteral (v : bytes)
| FixedLiteral (v : bytes)
| DateLiteral (v : Z)
| TimeLiteral (v : Z)
| TimestampLiteral (v : Z)
| TimestampTzLiteral (v : Z)
| UUIDLiteral (v : bytes).

(** Modelled from the spec: [Literal.Equals].  "Equals(other) returns true
    only if both share the same kind and payload; mismatched kinds (or a
    null/absent comparand) return false rather than erroring."  Payloads
    are compared the way Go compares them: [==] on scalars, strings and
    byte arrays (for floats that is the IEEE comparison [SFeqb]: NaN is
    equal to nothing, the two zeros are equal), content comparison on byte
    slices. *)
Definition sameKindAndPayload (a b : Literal) : bool :=
  match a, b with
  | BoolLiteral x, BoolLiteral y => Bool.eqb x y
  | Int32Literal x, Int32Literal y => Z.eqb x y
  | Int64Literal x, Int64Literal y => Z.eqb x y
  | Float32Literal x, Float32Literal y => SFeqb x y
  | Float64Literal x, Float64Literal y => SFeqb x y
  | StringLiteral x, StringLiteral y => String.eqb x y
  | BinaryLiteral x, BinaryLiteral y => bytes_eqb x y
  | FixedLiteral x, FixedLiteral y => bytes_eqb x y
  | DateLiteral x, DateLiteral y => Z.eqb x y
  | TimeLiteral x, TimeLiteral y => Z.eqb x y
  | TimestampLiteral x, TimestampLiteral y => Z.eqb x y
  | TimestampTzLiteral x, TimestampTzLiteral y => Z.eqb x y
  | UUIDLiteral x, UUIDLiteral y => bytes_eqb x y
  | _, _ => false
  end.

Definition Equals (a : Literal) (other : option Literal) : bool :=
  match other with
  | None => false
  | Some b => sameKindAndPayload a b
  end.

(** IEEE equality holds between two zeros, two infinities of one sign, and
    two finite numbers with the same sign, mantissa and exponent. *)
Definition sameNumber (x y : spec_float) : Prop :=
  match x, y with
  | S754_zero _, S754_zero _ => True
  | S754_infinity s1, S754_infinity s2 => s1 = s2
  | S754_finite s1 m1 e1, S754_finite s2 m2 e2 => s1 = s2 /\ m1 = m2 /\ e1 = e2
  | _, _ => False
  end.

(** The two kinds whose payload is a byte slice; [addliteral] and
    [Contains] treat them apart. *)
Definition byteContent (v : Literal) : option bytes :=
  match v with
  | BinaryLiteral b | FixedLiteral b => Some b
  | _ => None
  end.

End Literals.

(* ===================================================================== *)
(** * literalSet *)
(* ===================================================================== *)

Module LiteralSets.
Import Literals.

(** The keys [literalSet] stores in its [map[any]...]: the [uint64] that
    [maphash.Bytes] returns, or a literal itself. *)
Inductive any : Type :=
| KHash (h : Z)
| KLit (v : Literal).

(** Go's [==] on two [any] keys: the dynamic types agree and the values are
    [==].  Slice-backed literals are not comparable in Go (using one as a
    key panics); [addliteral] and [Contains] never do, and the model gives
    [false] for them. *)
Definition any_eqb (k1 k2 : any) : bool :=
  match k1, k2 with
  | KHash h1, KHash h2 => Z.eqb h1 h2
  | KLit a, KLit b =>
      match a, b with
      | BoolLiteral x, BoolLiteral y => Bool.eqb x y
      | Int32Literal x, Int32Literal y => Z.eqb x y
      | Int64Literal x, Int64Literal y => Z.eqb x y
      | Float32Literal x, Float32Literal y => SFeqb x y
      | Float64Literal x, Float64Literal y => SFeqb x y
      | StringLiteral x, StringLiteral y => String.eqb x y
      | DateLiteral x, DateLiteral y => Z.eqb x y
      | TimeLiteral x, TimeLiteral y => Z.eqb x y
      | TimestampLiteral x, TimestampLiteral y => Z.eqb x y
      | TimestampTzLiteral x, TimestampTzLiteral y => Z.eqb x y
      | UUIDLiteral x, UUIDLiteral y => bytes_eqb x y
      | _, _ => false
      end
  | _, _ => false
  end.

(** [struct{ orig Literal }]: [orig] may be nil. *)
Record entry : Type := mkEntry { orig : option Literal }.

(** A Go map as the list of its entries.  A key that is [==] to none
    (a NaN float) can sit in a Go map several times and is never found
    again, so the entries are kept as a list and compared with [any_eqb]
    rather than in a map keyed by Leibniz equality.  Go's iteration order
    is unspecified; here it is the order of first insertion. *)
Definition literalSet : Type := list (any * entry).

(** [v, ok := l[k]] *)
Fixpoint mapaccess (k : any) (l : literalSet) : option entry :=
  match l with
  | [] => None
  | (k', v') :: l' => if any_eqb k' k then Some v' else mapaccess k l'
  end.

(** [l[k] = v]: overwrites the entry whose key is [==] to [k] (the runtime
    also stores the new key when the key type is an interface), or adds
    one. *)
Fixpoint mapassign (k : any) (v : entry) (l : literalSet) : literalSet :=
  match l with
  | [] => [(k, v)]
  | (k', v') :: l' =>
      if any_eqb k' k then (k, v) :: l' else (k', v') :: mapassign k v l'
  end.

Section WithHash.

(** [maphash.Bytes(lzseed, b)]: [lzseed] is drawn once when the package is
    initialised, so within a process this is one fixed function from byte
    strings to [uint64]; nothing more is assumed about it. *)
Variable maphash_Bytes : bytes -> Z.

Definition addliteral (l : literalSet) (v : Literal) : literalSet :=
  match v with
  | FixedLiteral b => mapassign (KHash (maphash_Bytes b)) (mkEntry (Some v)) l
  | BinaryLiteral b => mapassign (KHash (maphash_Bytes b)) (mkEntry (Some v)) l
  | _ => mapassign (KLit v) (mkEntry None) l
  end.

Definition newLiteralSet (vals : list Literal) : literalSet :=
  fold_left addliteral vals [].

Definition Add (l : literalSet) (lits : list Literal) : literalSet :=
  fold_left addliteral lits l.

Definition Contains (l : literalSet) (lit : Literal) : bool :=
  match lit with
  | BinaryLiteral b =>
      match mapaccess (KHash (maphash_Bytes b)) l with
      | None => false
      | Some v => Equals lit (orig v)
      end
  | FixedLiteral b =>
      match mapaccess (KHash (maphash_Bytes b)) l with
      | None => false
      | Some v => Equals lit (orig v)
      end
  | _ =>
      match mapaccess (KLit lit) l with
      | None => false
      | Some _ => true
      end
  end.

(** [Members] returns a [[]Literal]; an element is nil when a hash key has
    a nil [orig]. *)
Definition Members (l : literalSet) : list (option Literal) :=
  map (fun kv => match fst kv with
                 | KLit k => Some k
                 | KHash _ => orig (snd kv)
                 end) l.

Definition Len (l : literalSet) : Z := Z.of_nat (List.length l).

(** The sets a program can hold: made by [newLiteralSet], grown by [Add]. *)
Inductive reachable : literalSet -> Prop :=
| reach_new vals : reachable (newLiteralSet vals)
| reach_Add l lits : reachable l -> reachable (Add l lits).

(** The key and the entry [addliteral] assigns for a literal. *)
Definition keyOf (v : Literal) : any :=
  match byteContent v with
  | Some b => KHash (maphash_Bytes b)
  | None => KLit v
  end.

Definition entryOf (v : Literal) : entry :=
  match byteContent v with
  | Some _ => mkEntry (Some v)
  | None => mkEntry None
  end.

(** What [addliteral] keeps true of the entries: a hash key is the hash of
    the byte content of the literal kept in [orig]; a literal key is not
    slice-backed. *)
Definition entryShape (kv : any * entry) : Prop :=
  match fst kv with
  | KHash h =>
      exists m b, orig (snd kv) = Some m /\ byteContent m = Some b
                  /\ h = maphash_Bytes b
  | KLit v => byteContent v = None
  end.

(** What a Go map keeps true of its keys: no two of them are [==]. *)
Inductive distinctKeys : literalSet -> Prop :=
| distinct_nil : distinctKeys []
| distinct_cons k v l :
    (forall kv, In kv l -> any_eqb (fst kv) k = false) ->
    distinctKeys l ->
    distinctKeys ((k, v) :: l).

Definition wellFormed (l : literalSet) : Prop :=
  Forall entryShape l /\ distinctKeys l.

(** The members of a set, read off the literals passed to the constructor
    and to [Add] so far, in the order they were passed: a literal is a
    member as long as no literal passed after it was stored under a key
    [==] to its own.  Such a later literal displaces it: [addliteral]
    assigns to the entry under that key. *)
Inductive held : list Literal -> Literal -> Prop :=
| held_here m later :
    (forall y, In y later -> any_eqb (keyOf y) (keyOf m) = false) ->
    held (m :: later) m
| held_later x hist m :
    held hist m -> held (x :: hist) m.

(** A set together with the literals passed so far: to [newLiteralSet],
    then to each [Add]. *)
Inductive builtFrom : list Literal -> literalSet -> Prop :=
| built_new vals : builtFrom vals (newLiteralSet vals)
| built_Add hist l lits :
    builtFrom hist l -> builtFrom (hist ++ lits) (Add l lits).

End WithHash.

(** A hash function to run examples on: the length of the byte string.
    Any two byte strings of one length collide under it. *)
Definition lengthHash (b : bytes) : Z := Z.of_nat (List.length b).

End LiteralSets.

(* ===================================================================== *)
(** * accessor *)
(* ===================================================================== *)

Module Accessors.

(** What a column of a row can hold, as an [any]: nil, a value that is not
    a row, or a row ([structLike]) of such values. *)
Inductive value : Type :=
| VNil
| VBool (b : bool)
| VInt (i : Z)
| VString (s : string)
| VStruct (cols : list value).

(** The two run-time panics [accessor.Get] can raise: an index out of
    range inside [structLike.Get], and the failed type assertion
    [val.(structLike)]. *)
Inductive panic : Type :=
| IndexOutOfRange (pos : Z)
| NotStructLike (val : value).

Inductive outcome (A : Type) : Type :=
| Ret (a : A)
| Panics (p : panic).
Arguments Ret {A} a.
Arguments Panics {A} p.

(** [structLike]: a row is the list of its columns. *)
Definition structLike : Type := list value.

Definition Size (s : structLike) : Z := Z.of_nat (List.length s).

(** [Get] "will panic if pos is out of bounds". *)
Definition structGet (s : structLike) (pos : Z) : outcome value :=
  if pos <? 0 then Panics (IndexOutOfRange pos)
  else match nth_error s (Z.to_nat pos) with
       | Some v => Ret v
       | None => Panics (IndexOutOfRange pos)
       end.

(** [type accessor struct { pos int; inner *accessor }]: a finite chain,
    [inner = None] for the nil pointer. *)
Inductive accessor : Type :=
| mkAccessor (pos : Z) (inner : option accessor).

Definition pos (a : accessor) : Z := let 'mkAccessor p _ := a in p.
Definition inner (a : accessor) : option accessor := let 'mkAccessor _ i := a in i.

(** The loop of [Get], entered with the current [val] and [inner]:
    [for val != nil && inner.inner != nil { inner = inner.inner;
    val = val.(structLike).Get(inner.pos) }; return val]. *)
Fixpoint descend (val : value) (a : accessor) : outcome value :=
  match val with
  | VNil => Ret val
  | _ =>
      match a with
      | mkAccessor _ None => Ret val
      | mkAccessor _ (Some nxt) =>
          match val with
          | VStruct s =>
              match structGet s (pos nxt) with
              | Ret v => descend v nxt
              | Panics p => Panics p
              end
          | _ => Panics (NotStructLike val)
          end
      end
  end.

Definition Get (a : accessor) (s : structLike) : outcome value :=
  match structGet s (pos a) with
  | Ret val => descend val a
  | Panics p => Panics p
  end.

End Accessors.

(* ===================================================================== *)
(** * Avro schemas *)
(* ===================================================================== *)

Module AvroSchemas.
Local Open Scope string_scope.

(** ** The part of the [avro] package the translation calls *)

(** [avro.String], [avro.Int], ... : the primitive type names. *)
Inductive PrimitiveType : Type :=
| String_ | Int | Long | Bytes | Boolean | Float | Double.

(** [avro.Date], [avro.TimeMicros], [avro.UUID]. *)
Inductive LogicalType : Type :=
| Date | TimeMicros | UUID.

Definition primitiveName (t : PrimitiveType) : string :=
  match t with
  | String_ => "string" | Int => "int" | Long => "long" | Bytes => "bytes"
  | Boolean => "boolean" | Float => "float" | Double => "double"
  end.

Definition logicalName (l : LogicalType) : string :=
  match l with
  | Date => "date" | TimeMicros => "time-micros" | UUID => "uuid"
  end.

(** The values the code puts in a [map[string]any] of properties. *)
Inductive propValue : Type :=
| PBool (b : bool)
| PInt (i : Z).

Definition properties : Type := list (string * propValue).

Inductive Schema : Type :=
| PrimitiveSchema (t : PrimitiveType) (logical : option LogicalType) (props : properties)
| FixedSchema (name namespace : string) (size : Z) (logical : option LogicalType)
| NullSchema
| UnionSchema (types : list Schema)
| RecordSchema (name namespace : string) (fields : list Field)
with Field : Type :=
| mkField (name : string) (type : Schema) (doc : string) (props : properties).

Definition fieldName (f : Field) : string := let 'mkField n _ _ _ := f in n.
Definition fieldType (f : Field) : Schema := let 'mkField _ t _ _ := f in t.
Definition fieldDoc (f : Field) : string := let 'mkField _ _ d _ := f in d.
Definition fieldProps (f : Field) : properties := let 'mkField _ _ _ p := f in p.

(** Errors: the one [nestedFieldToAvroSchema] builds with [fmt.Errorf]
    (kept as its message), and the ones the [avro] constructors return. *)
Inductive error : Type :=
| Errorf (msg : string)
| AvroInvalidName (name : string)
| AvroUnionInUnion
| AvroUnionDuplicate (typeName : string).

Inductive result (A : Type) : Type :=
| Ok (a : A)
| Err (e : error).
Arguments Ok {A} a.
Arguments Err {A} e.

(** The Avro name rule the constructors enforce: a name is not empty,
    starts with a letter or [_], and goes on with letters, digits
    or [_]. *)
Definition isLetter (c : ascii) : bool :=
  let n := N_of_ascii c in
  ((65 <=? n) && (n <=? 90) || (97 <=? n) && (n <=? 122) || (n =? 95))%N.

Definition isLetterOrDigit (c : ascii) : bool :=
  let n := N_of_ascii c in
  isLetter c || ((48 <=? n) && (n <=? 57))%N.

Fixpoint allChars (p : ascii -> bool) (s : string) : bool :=
  match s with
  | EmptyString => true
  | String c s' => p c && allChars p s'
  end.

Definition validateName (name : string) : option error :=
  match name with
  | EmptyString => Some (AvroInvalidName name)
  | String c rest =>
      if isLetter c && allChars isLetterOrDigit rest then None
      else Some (AvroInvalidName name)
  end.

Definition NewPrimitiveSchema (t : PrimitiveType) (l : option LogicalType)
    (props : properties) : Schema :=
  PrimitiveSchema t l props.

Definition NewNullSchema : Schema := NullSchema.

(** [avro.NewFixedSchema(name, namespace, size, logical)]; the name is
    checked (names are taken without dots: the code passes constants). *)
Definition NewFixedSchema (name namespace : string) (size : Z)
    (l : option LogicalType) : result Schema :=
  match validateName name with
  | Some e => Err e
  | None => Ok (FixedSchema name namespace size l)
  end.

(** The name under which a union tells its branches apart. *)
Definition schemaTypeName (s : Schema) : string :=
  match s with
  | PrimitiveSchema t None _ => primitiveName t
  | PrimitiveSchema t (Some l) _ => primitiveName t ++ "." ++ logicalName l
  | FixedSchema n _ _ _ => n
  | NullSchema => "null"
  | UnionSchema _ => "union"
  | RecordSchema n _ _ => n
  end.

Definition isUnion (s : Schema) : bool :=
  match s with UnionSchema _ => true | _ => false end.

(** [avro.NewUnionSchema(types)]: a branch may not be a union, and no two
    branches may have the same type name. *)
Fixpoint checkUnion (seen : list string) (types : list Schema) : option error :=
  match types with
  | [] => None
  | s :: rest =>
      if isUnion s then Some AvroUnionInUnion
      else if existsb (String.eqb (schemaTypeName s)) seen
           then Some (AvroUnionDuplicate (schemaTypeName s))
           else checkUnion (schemaTypeName s :: seen) rest
  end.

Definition NewUnionSchema (types : list Schema) : result Schema :=
  match checkUnion [] types with
  | Some e => Err e
  | None => Ok (UnionSchema types)
  end.

(** [avro.NewField(name, typ, avro.WithDoc(doc), avro.WithProps(props))] *)
Definition NewField (name : string) (typ : Schema) (doc : string)
    (props : properties) : result Field :=
  match validateName name with
  | Some e => Err e
  | None => Ok (mkField name typ doc props)
  end.

(** [avro.NewRecordSchema(name, namespace, fields)] *)
Definition NewRecordSchema (name namespace : string) (fields : list Field)
    : result Schema :=
  match validateName name with
  | Some e => Err e
  | None => Ok (RecordSchema name namespace fields)
  end.

(** ** The input type tree *)

(** Modelled from the spec: the logical types ([types.go] is not part of
    the sources at hand).  The twelve types the translation knows, and
    [OtherType] for every other implementation of [Type] (decimal, fixed,
    struct, list, map, ...), carrying what its [String()] returns. *)
Inductive IcebergType : Type :=
| StringType | Int32Type | Int64Type | BinaryType | BooleanType
| Float32Type | Float64Type | DateType | TimeType
| TimestampType | TimestampTzType | UUIDType
| OtherType (str : string).

Definition TypeString (t : IcebergType) : string :=
  match t with
  | StringType => "string" | Int32Type => "int" | Int64Type => "long"
  | BinaryType => "binary" | BooleanType => "boolean"
  | Float32Type => "float" | Float64Type => "double"
  | DateType => "date" | TimeType => "time"
  | TimestampType => "timestamp" | TimestampTzType => "timestamptz"
  | UUIDType => "uuid"
  | OtherType str => str
  end.

(** Modelled from the spec: [NestedField], "an ordered sequence of
    {field-id:int, name:string, type:logical-type, required:bool,
    doc:string}". *)
Record NestedField : Type := mkNestedField {
  ID : Z;
  Name : string;
  Type_ : IcebergType;
  Required : bool;
  Doc : string
}.

(** ** The translation *)

Definition nestedFieldToAvroSchema (f : NestedField) : result Schema :=
  (* the [switch]: [sch, err] after it, or the [default] case's return *)
  let switch : result Schema :=
    match Type_ f with
    | StringType => Ok (NewPrimitiveSchema String_ None [])
    | Int32Type => Ok (NewPrimitiveSchema Int None [])
    | Int64Type => Ok (NewPrimitiveSchema Long None [])
    | BinaryType => Ok (NewPrimitiveSchema Bytes None [])
    | BooleanType => Ok (NewPrimitiveSchema Boolean None [])
    | Float32Type => Ok (NewPrimitiveSchema Float None [])
    | Float64Type => Ok (NewPrimitiveSchema Double None [])
    | DateType => Ok (NewPrimitiveSchema Int (Some Date) [])
    | TimeType => Ok (NewPrimitiveSchema Long (Some TimeMicros) [])
    | TimestampType =>
        Ok (NewPrimitiveSchema Long (Some TimeMicros)
              [("adjust-to-utc", PBool false)])
    | TimestampTzType =>
        Ok (NewPrimitiveSchema Long (Some TimeMicros)
              [("adjust-to-utc", PBool true)])
    | UUIDType => NewFixedSchema "uuid_fixed" "" 16 (Some UUID)
    | OtherType _ =>
        Err (Errorf ("unsupported Iceberg type: " ++ TypeString (Type_ f)))
    end in
  match switch with
  | Err e => Err e
  | Ok sch =>
      if negb (Required f)
      then NewUnionSchema [NewNullSchema; sch]
      else Ok sch
  end.

Definition nestedFieldToAvroField (f : NestedField) : result Field :=
  match nestedFieldToAvroSchema f with
  | Err e => Err e
  | Ok sch => NewField (Name f) sch (Doc f) [("field-id", PInt (ID f))]
  end.

(** The loop of [structTypeToAvroPartitionSchema] over the fields still to
    translate, [aFields] holding the ones already appended. *)
Fixpoint translateFields (fields : list NestedField) (aFields : list Field)
    : result (list Field) :=
  match fields with
  | [] => Ok aFields
  | field :: rest =>
      match nestedFieldToAvroField field with
      | Err e => Err e
      | Ok aField => translateFields rest (aFields ++ [aField])
      end
  end.

(** [st.Fields()] is the argument. *)
Definition structTypeToAvroPartitionSchema (st : list NestedField)
    : result Schema :=
  match translateFields st [] with
  | Err e => Err e
  | Ok aFields => NewRecordSchema "r102" "" aFields
  end.

(** ** Words for the statements *)

(** The twelve types of the [switch]. *)
Definition supported (t : IcebergType) : bool :=
  match t with OtherType _ => false | _ => true end.

(** A field definition with another [Required], or another [Type]. *)
Definition withRequired (r : bool) (f : NestedField) : NestedField :=
  mkNestedField (ID f) (Name f) (Type_ f) r (Doc f).

Definition withType (t : IcebergType) (f : NestedField) : NestedField :=
  mkNestedField (ID f) (Name f) t (Required f) (Doc f).

(** The schema of a timestamp column, the UTC adjustment left open. *)
Definition timestampSchema (required adjustToUTC : bool) : Schema :=
  let value :=
    PrimitiveSchema Long (Some TimeMicros)
      [("adjust-to-utc", PBool adjustToUTC)] in
  if required then value else UnionSchema [NullSchema; value].

End AvroSchemas.

(* ===================================================================== *)
(** * avroEncode *)
(* ===================================================================== *)

Module AvroEncode.

(** [ocf.Deflate] and the other codecs of the container format. *)
Inductive CodecName : Type := Null | Deflate | Snappy | ZStandard.

(** What the option functions passed to [ocf.NewEncoderWithSchema] set. *)
Record encoderConfig : Type := mkConfig {
  Metadata : list (string * string);
  Codec : CodecName
}.

(** [strconv.Itoa] *)
Definition Itoa (i : Z) : string := DecimalString.NilZero.string_of_int (Z.to_int i).

(** The options [avroEncode] passes to the constructor. *)
Definition configOf (version : Z) : encoderConfig :=
  mkConfig [("format-version"%string, Itoa version)] Deflate.

Section Encoder.

(** The [ocf] package, as [avroEncode] uses it.  [World] is everything the
    encoder's calls can change: the destination writer [out] and the
    encoder's own buffers.  Each call takes the world and gives back the
    world it leaves, with its error or result. *)
Variables (Schema T Encoder World Error : Type).
Variable NewEncoderWithSchema :
  Schema -> encoderConfig -> World -> (Error + Encoder) * World.
Variable Encode : Encoder -> T -> World -> option Error * World.
Variable Close : Encoder -> World -> option Error * World.

(** [for _, file := range vals { if err := enc.Encode(file); err != nil
    { return err } }] *)
Fixpoint encodeLoop (enc : Encoder) (vals : list T) (w : World)
    : option Error * World :=
  match vals with
  | [] => (None, w)
  | file :: rest =>
      match Encode enc file w with
      | (Some err, w') => (Some err, w')
      | (None, w') => encodeLoop enc rest w'
      end
  end.

Definition avroEncode (sch : Schema) (version : Z) (vals : list T) (w : World)
    : option Error * World :=
  match NewEncoderWithSchema sch
          (mkConfig [("format-version"%string, Itoa version)] Deflate) w with
  | (inl err, w1) => (Some err, w1)
  | (inr enc, w1) =>
      match encodeLoop enc vals w1 with
      | (Some err, w2) => (Some err, w2)
      | (None, w2) => Close enc w2
      end
  end.

(** A run of [Encode] over [vals] in which every call succeeds, taking the
    world from [w] to [w']. *)
Inductive encodes : Encoder -> list T -> World -> World -> Prop :=
| encodes_nil enc w : encodes enc [] w w
| encodes_cons enc file rest w w1 w' :
    Encode enc file w = (None, w1) ->
    encodes enc rest w1 w' ->
    encodes enc (file :: rest) w w'.

End Encoder.

Arguments encodeLoop {T Encoder World Error} Encode enc vals w.
Arguments avroEncode {Schema T Encoder World Error}
  NewEncoderWithSchema Encode Close sch version vals w.
Arguments encodes {T Encoder World Error} Encode enc vals w w'.

(** ** Recording the calls

    Any implementation of the encoder can be wrapped so that the world
    also carries the list of the calls made so far. *)
Section Recording.

Variables (Schema T Encoder World Error : Type).
Variable NewEncoderWithSchema :
  Schema -> encoderConfig -> World -> (Error + Encoder) * World.
Variable Encode : Encoder -> T -> World -> option Error * World.
Variable Close : Encoder -> World -> option Error * World.

Inductive call : Type :=
| CallNew (cfg : encoderConfig)
| CallEncode (file : T)
| CallClose.

Definition recNew (sch : Schema) (cfg : encoderConfig) (w : World * list call)
    : (Error + Encoder) * (World * list call) :=
  let (r, w') := NewEncoderWithSchema sch cfg (fst w) in
  (r, (w', snd w ++ [CallNew cfg])).

Definition recEncode (enc : Encoder) (file : T) (w : World * list call)
    : option Error * (World * list call) :=
  let (r, w') := Encode enc file (fst w) in
  (r, (w', snd w ++ [CallEncode file])).

Definition recClose (enc : Encoder) (w : World * list call)
    : option Error * (World * list call) :=
  let (r, w') := Close enc (fst w) in
  (r, (w', snd w ++ [CallClose])).

(** [avroEncode] run on the recording encoder, from an empty record. *)
Definition avroEncodeRec (sch : Schema) (version : Z) (vals : list T) (w : World)
    : option Error * (World * list call) :=
  avroEncode recNew recEncode recClose sch version vals (w, []).

End Recording.

Arguments CallNew {T} cfg.
Arguments CallEncode {T} file.
Arguments CallClose {T}.
Arguments recNew {Schema T Encoder World Error} NewEncoderWithSchema sch cfg w.
Arguments recEncode {T Encoder World Error} Encode enc file w.
Arguments recClose {T Encoder World Error} Close enc w.
Arguments avroEncodeRec {Schema T Encoder World Error}
  NewEncoderWithSchema Encode Close sch version vals w.

(** ** A small encoder to run [avroEncode] on

    Records are integers, the world is the list of records written, and
    encoding a negative record fails. *)
Inductive toyError : Type := BadSchema | BadRecord (file : Z) | CloseFailed.

Definition toyNew (sch : bool) (cfg : encoderConfig) (w : list Z)
    : (toyError + unit) * list Z :=
  if sch then (inr tt, w) else (inl BadSchema, w).

Definition toyEncode (enc : unit) (file : Z) (w : list Z)
    : option toyError * list Z :=
  if file <? 0 then (Some (BadRecord file), w) else (None, w ++ [file]).

Definition toyClose (enc : unit) (w : list Z) : option toyError * list Z :=
  (None, w).

Definition toyAvroEncode (version : Z) (vals : list Z)
    : option toyError * (list Z * list (call Z)) :=
  avroEncodeRec toyNew toyEncode toyClose true version vals [].

End AvroEncode.

(* ===================================================================== *)
(** * literalSet: Equals and All *)
(* ===================================================================== *)

Module LiteralSetOps.
Import Literals LiteralSets.

(** A [Set[Literal]] interface value: a [literalSet], or a value of some
    other implementation (the type assertion [other.(literalSet)] fails on
    it). *)
Inductive SetValue : Type :=
| IsLiteralSet (l : literalSet)
| OtherSet.

(** The function [literalSet.Equals] passes to [maps.EqualFunc]. *)
Definition origEq (v1 v2 : entry) : bool :=
  match orig v1, orig v2 with
  | None, None => true
  | None, Some _ => false
  | Some _, None => false
  | Some a, Some b => Equals a (Some b)
  end.

(** [maps.EqualFunc(m1, m2, eq)]: the lengths agree, and every key of [m1]
    is found in [m2] with a value [eq] accepts. *)
Definition maps_EqualFunc (m1 m2 : literalSet) (eq : entry -> entry -> bool)
    : bool :=
  if negb (Nat.eqb (List.length m1) (List.length m2)) then false
  else forallb (fun kv => match mapaccess (fst kv) m2 with
                          | None => false
                          | Some v2 => eq (snd kv) v2
                          end) m1.

(** [literalSet.Equals] *)
Definition literalSet_Equals (l : literalSet) (other : SetValue) : bool :=
  match other with
  | OtherSet => false
  | IsLiteralSet rhs => maps_EqualFunc l rhs origEq
  end.

(** [literalSet.All]: the loop returns [false] at the first element [fn]
    refuses. *)
Fixpoint All (l : literalSet) (fn : option Literal -> bool) : bool :=
  match l with
  | [] => true
  | (k, v) :: l' =>
      let e := match k with
               | KLit k => Some k
               | KHash _ => orig v
               end in
      if negb (fn e) then false else All l' fn
  end.

(** [addliteral] leaves [orig] nil under a literal key. *)
Definition origShape (kv : any * entry) : Prop :=
  match fst kv with
  | KLit _ => orig (snd kv) = None
  | KHash _ => True
  end.

(** Every key of [l1] is found in [l2], with an [orig] that agrees. *)
Definition covers (l1 l2 : literalSet) : Prop :=
  forall k v1, In (k, v1) l1 ->
    exists v2, mapaccess k l2 = Some v2 /\ origEq v1 v2 = true.

End LiteralSetOps.

(* ===================================================================== *)
(** * max and Difference *)
(* ===================================================================== *)

Module Utils.

Inductive panicking (A : Type) : Type :=
| Returns (a : A)
| PanicsWith (msg : string).
Arguments Returns {A} a.
Arguments PanicsWith {A} msg.

Section Max.

(** [max[T cmp.Ordered]]: [T] with its [>]. *)
Variable T : Type.
Variable gtb : T -> T -> bool.

Definition max (vals : list T) : panicking T :=
  match vals with
  | [] => PanicsWith "can't call max with no arguments"
  | v0 :: rest =>
      Returns (fold_left (fun out v => if gtb v out then v else out) rest v0)
  end.

End Max.

Arguments max {T} gtb vals.

(** A [map[string]bool] as the list of its entries; a missing key reads as
    the zero value [false]. *)
Definition stringBoolMap : Type := list (string * bool).

Fixpoint mapIndex (m : stringBoolMap) (k : string) : bool :=
  match m with
  | [] => false
  | (k', v) :: m' => if String.eqb k' k then v else mapIndex m' k
  end.

Fixpoint mapStore (m : stringBoolMap) (k : string) (v : bool) : stringBoolMap :=
  match m with
  | [] => [(k, v)]
  | (k', v') :: m' =>
      if String.eqb k' k then (k, v) :: m' else (k', v') :: mapStore m' k v
  end.

Definition Difference (a b : list string) : list string :=
  let m := fold_left (fun m item => mapStore m item true) b [] in
  fold_left (fun diff item =>
               if negb (mapIndex m item) then diff ++ [item] else diff)
            a [].

End Utils.

(* ===================================================================== *)
(** * Rows that fit a schema *)
(* ===================================================================== *)

Module Shapes.
Import Accessors.

(** The shape of a column: a struct with the shapes of its columns, or
    anything else. *)
Inductive shape : Type :=
| SLeaf
| SStruct (fields : list shape).

(** A value fits a shape: nil fits every shape; a row fits a struct shape
    column by column; any other value fits a leaf. *)
Fixpoint hasShape (v : value) (t : shape) {struct v} : bool :=
  match v with
  | VNil => true
  | VStruct cols =>
      match t with
      | SLeaf => false
      | SStruct fields =>
          (fix columns (cs : list value) (fs : list shape) : bool :=
             match cs, fs with
             | [], [] => true
             | c :: cs', f :: fs' => hasShape c f && columns cs' fs'
             | _, _ => false
             end) cols fields
      end
  | _ =>
      match t with
      | SLeaf => true
      | SStruct _ => false
      end
  end.

(** An accessor is a path of a shape: its position is a column of the
    struct, and its continuation is a path of that column's shape. *)
Fixpoint validPath (a : accessor) (t : shape) : bool :=
  match a, t with
  | mkAccessor p i, SStruct fields =>
      if p <? 0 then false
      else match nth_error fields (Z.to_nat p) with
           | None => false
           | Some ft =>
               match i with
               | None => true
               | Some nxt => validPath nxt ft
               end
           end
  | _, SLeaf => false
  end.

End Shapes.

(* ===================================================================== *)
(** * Properties of literalSet *)
(* ===================================================================== *)

Module LiteralSetFacts.
Import Literals LiteralSets.

(** ** Equality of payloads and keys *)

Lemma bytes_eqb_true (a b : bytes) : bytes_eqb a b = true <-> a = b.
Proof.
  revert b; induction a as [|x a IH]; intros [|y b]; simpl;
    try (split; [discriminate | discriminate]); try tauto.
  rewrite andb_true_iff, IH. split.
  - intros [Hxy ->]. apply Byte.byte_dec_bl in Hxy. now subst.
  - intros H; injection H as -> ->. split; [apply Byte.byte_dec_lb|]; reflexivity.
Qed.

Lemma bytes_eqb_refl (a : bytes) : bytes_eqb a a = true.
Proof. now apply bytes_eqb_true. Qed.

Lemma finite_compare_eq (e1 e2 : Z) (m1 m2 : positive) :
  match Z.compare e1 e2 with
  | Lt => Lt | Gt => Gt | Eq => Pos.compare_cont Eq m1 m2 end = Eq
  <-> m1 = m2 /\ e1 = e2.
Proof.
  destruct (Z.compare_spec e1 e2) as [He|He|He].
  - change (Pos.compare_cont Eq m1 m2) with (Pos.compare m1 m2).
    rewrite Pos.compare_eq_iff. tauto.
  - split; [discriminate | intros [_ ?]; lia].
  - split; [discriminate | intros [_ ?]; lia].
Qed.

Lemma finite_compare_opp_eq (e1 e2 : Z) (m1 m2 : positive) :
  match Z.compare e1 e2 with
  | Lt => Gt | Gt => Lt | Eq => CompOpp (Pos.compare_cont Eq m1 m2) end = Eq
  <-> m1 = m2 /\ e1 = e2.
Proof.
  destruct (Z.compare_spec e1 e2) as [He|He|He].
  - change (Pos.compare_cont Eq m1 m2) with (Pos.compare m1 m2).
    rewrite <- Pos.compare_eq_iff.
    destruct (Pos.compare m1 m2); simpl; intuition congruence.
  - split; [discriminate | intros [_ ?]; lia].
  - split; [discriminate | intros [_ ?]; lia].
Qed.

Lemma SFeqb_true (x y : spec_float) : SFeqb x y = true <-> sameNumber x y.
Proof.
  unfold SFeqb.
  destruct x as [s1|s1| |s1 m1 e1], y as [s2|s2| |s2 m2 e2]; simpl;
    try (split; [discriminate | tauto]); try tauto;
    try (destruct s1; simpl; (split; [discriminate | tauto]));
    try (destruct s2; simpl; (split; [discriminate | tauto])).
  - destruct s1, s2; simpl; split; try discriminate; try reflexivity; tauto.
  - destruct s1, s2.
    + pose proof (finite_compare_opp_eq e1 e2 m1 m2) as H.
      destruct (match (e1 ?= e2)%Z with
                | Eq => CompOpp (Pos.compare_cont Eq m1 m2)
                | Lt => Gt | Gt => Lt end);
        split; try discriminate; try tauto; intros; exfalso;
        intuition congruence.
    + split; [discriminate | intros [? _]; discriminate].
    + split; [discriminate | intros [? _]; discriminate].
    + pose proof (finite_compare_eq e1 e2 m1 m2) as H.
      destruct (match (e1 ?= e2)%Z with
                | Eq => Pos.compare_cont Eq m1 m2
                | Lt => Lt | Gt => Gt end);
        split; try discriminate; try tauto; intros; exfalso;
        intuition congruence.
Qed.

Lemma SFeqb_sym (x y : spec_float) : SFeqb x y = SFeqb y x.
Proof.
  apply eq_true_iff_eq. rewrite !SFeqb_true.
  destruct x, y; simpl; intuition congruence.
Qed.

Lemma SFeqb_euclid (x y z : spec_float) :
  SFeqb x z = true -> SFeqb y z = true -> SFeqb x y = true.
Proof.
  rewrite !SFeqb_true. destruct x, y, z; simpl; intuition congruence.
Qed.


Lemma sameKindAndPayload_sym (a b : Literal) :
  sameKindAndPayload a b = sameKindAndPayload b a.
Proof.
  destruct a, b; simpl; try reflexivity;
    first [ apply Z.eqb_sym | apply SFeqb_sym | apply String.eqb_sym
          | apply eq_true_iff_eq; rewrite !bytes_eqb_true; split; congruence
          | idtac ].
  destruct v, v0; reflexivity.
Qed.

Lemma any_eqb_sym (k1 k2 : any) : any_eqb k1 k2 = any_eqb k2 k1.
Proof.
  destruct k1 as [h1|a], k2 as [h2|b]; simpl; try reflexivity.
  - apply Z.eqb_sym.
  - destruct a, b; simpl; try reflexivity;
      first [ apply Z.eqb_sym | apply SFeqb_sym | apply String.eqb_sym
            | apply eq_true_iff_eq; rewrite !bytes_eqb_true; split; congruence
            | idtac ].
    destruct v, v0; reflexivity.
Qed.

(** Two keys [==] to a third are [==] to each other. *)
Lemma any_eqb_euclid (k1 k2 k : any) :
  any_eqb k1 k = true -> any_eqb k2 k = true -> any_eqb k1 k2 = true.
Proof.
  destruct k1 as [h1|a], k2 as [h2|b], k as [h|c]; simpl; try discriminate.
  - rewrite !Z.eqb_eq. congruence.
  - destruct a, b, c; simpl; try discriminate;
      rewrite ?Z.eqb_eq, ?String.eqb_eq, ?bytes_eqb_true, ?Bool.eqb_true_iff;
      try congruence.
    all: apply SFeqb_euclid.
Qed.

(** On the kinds [addliteral] uses as keys, Go's [==] and [Equals] agree. *)
Lemma any_eqb_KLit (a b : Literal) :
  any_eqb (KLit a) (KLit b) = true -> sameKindAndPayload a b = true.
Proof. destruct a, b; simpl; auto; discriminate. Qed.

Lemma sameKindAndPayload_any_eqb (a b : Literal) :
  byteContent a = None ->
  sameKindAndPayload a b = true -> any_eqb (KLit a) (KLit b) = true.
Proof. destruct a, b; simpl; auto; discriminate. Qed.

Lemma sameKindAndPayload_byteContent (a b : Literal) :
  sameKindAndPayload a b = true -> byteContent a = byteContent b.
Proof.
  destruct a, b; simpl; try discriminate; try reflexivity;
    rewrite bytes_eqb_true; congruence.
Qed.


(** ** The map operations *)

Lemma mapaccess_Some (k : any) (l : literalSet) (v : entry) :
  mapaccess k l = Some v ->
  exists k', In (k', v) l /\ any_eqb k' k = true.
Proof.
  induction l as [|[k0 v0] l IH]; simpl; [discriminate|].
  destruct (any_eqb k0 k) eqn:E.
  - intros [= ->]. exists k0. auto.
  - intros H. destruct (IH H) as (k' & Hin & Hk). exists k'. auto.
Qed.

Lemma mapaccess_None (k : any) (l : literalSet) :
  mapaccess k l = None ->
  forall kv, In kv l -> any_eqb (fst kv) k = false.
Proof.
  induction l as [|[k0 v0] l IH]; simpl; [tauto|].
  destruct (any_eqb k0 k) eqn:E; [discriminate|].
  intros H kv [<-|Hin]; auto.
Qed.

Lemma mapaccess_In (k k' : any) (v : entry) (l : literalSet) :
  distinctKeys l -> In (k', v) l -> any_eqb k' k = true ->
  mapaccess k l = Some v.
Proof.
  intros Hd; induction Hd as [|k0 v0 l Hk0 Hd IH]; simpl; [tauto|].
  intros [[= -> ->]|Hin] Hk.
  - now rewrite Hk.
  - destruct (any_eqb k0 k) eqn:E; [|auto].
    exfalso. specialize (Hk0 _ Hin). simpl in Hk0.
    rewrite (any_eqb_euclid k' k0 k Hk E) in Hk0. discriminate.
Qed.

Lemma In_mapassign (k : any) (v : entry) (l : literalSet) (kv : any * entry) :
  In kv (mapassign k v l) -> kv = (k, v) \/ In kv l.
Proof.
  induction l as [|[k0 v0] l IH]; simpl.
  - intros [<-|[]]. auto.
  - destruct (any_eqb k0 k); simpl; intros [<-|H]; auto.
    destruct (IH H); auto.
Qed.

Lemma mapassign_In (k : any) (v : entry) (l : literalSet) :
  In (k, v) (mapassign k v l).
Proof.
  induction l as [|[k0 v0] l IH]; simpl; auto.
  destruct (any_eqb k0 k); simpl; auto.
Qed.

(** An assignment adds an entry exactly when no key is [==] to the new
    one. *)
Lemma mapassign_length (k : any) (v : entry) (l : literalSet) :
  List.length (mapassign k v l) =
  match mapaccess k l with
  | Some _ => List.length l
  | None => S (List.length l)
  end.
Proof.
  induction l as [|[k0 v0] l IH]; simpl; auto.
  destruct (any_eqb k0 k); simpl; auto.
  rewrite IH. destruct (mapaccess k l); reflexivity.
Qed.

(** After [l[k] = v], a lookup of a key [==] to itself finds [v]. *)
Lemma mapaccess_mapassign (k : any) (v : entry) (l : literalSet) :
  any_eqb k k = true -> mapaccess k (mapassign k v l) = Some v.
Proof.
  intros Hk. induction l as [|[k0 v0] l IH]; simpl.
  - now rewrite Hk.
  - destruct (any_eqb k0 k) eqn:E; simpl; [now rewrite Hk | now rewrite E].
Qed.

Lemma mapassign_distinct (k : any) (v : entry) (l : literalSet) :
  distinctKeys l -> distinctKeys (mapassign k v l).
Proof.
  intros Hd; induction Hd as [|k0 v0 l Hk0 Hd IH]; simpl.
  - constructor; [intros ? []|constructor].
  - destruct (any_eqb k0 k) eqn:E.
    + constructor; auto. intros kv Hin.
      destruct (any_eqb (fst kv) k) eqn:E'; auto.
      rewrite <- (Hk0 _ Hin). symmetry. now apply any_eqb_euclid with k.
    + constructor; auto. intros kv Hin.
      destruct (In_mapassign _ _ _ _ Hin) as [->|Hin']; auto.
      simpl. now rewrite any_eqb_sym.
Qed.

Section WithHash.

Variable maphash_Bytes : bytes -> Z.

Notation addliteral := (addliteral maphash_Bytes).
Notation newLiteralSet := (newLiteralSet maphash_Bytes).
Notation Add := (Add maphash_Bytes).
Notation Contains := (Contains maphash_Bytes).
Notation reachable := (reachable maphash_Bytes).
Notation entryShape := (entryShape maphash_Bytes).
Notation keyOf := (keyOf maphash_Bytes).
Notation wellFormed := (wellFormed maphash_Bytes).

Lemma addliteral_mapassign (l : literalSet) (v : Literal) :
  addliteral l v = mapassign (keyOf v) (entryOf v) l.
Proof. destruct v; reflexivity. Qed.

Lemma entryShape_new (v : Literal) : entryShape (keyOf v, entryOf v).
Proof.
  unfold entryShape, keyOf, entryOf.
  destruct (byteContent v) as [b|] eqn:E; simpl; eauto.
Qed.

Lemma wellFormed_addliteral (l : literalSet) (v : Literal) :
  wellFormed l -> wellFormed (addliteral l v).
Proof.
  intros [Hs Hd]. rewrite addliteral_mapassign. split.
  - apply Forall_forall. intros kv Hin.
    destruct (In_mapassign _ _ _ _ Hin) as [->|Hin'].
    + apply entryShape_new.
    + now apply (proj1 (Forall_forall _ _) Hs).
  - now apply mapassign_distinct.
Qed.

Lemma wellFormed_Add (lits : list Literal) (l : literalSet) :
  wellFormed l -> wellFormed (Add l lits).
Proof.
  revert l; induction lits as [|v lits IH]; intros l Hl; simpl; auto.
  apply IH. now apply wellFormed_addliteral.
Qed.

Lemma wellFormed_nil : wellFormed [].
Proof. split; constructor. Qed.

Lemma reachable_wellFormed (l : literalSet) : reachable l -> wellFormed l.
Proof.
  induction 1.
  - apply (wellFormed_Add vals []), wellFormed_nil.
  - now apply wellFormed_Add.
Qed.

(** ** Contains and Members *)

Lemma Contains_keyOf (l : literalSet) (lit : Literal) :
  Contains l lit =
  match mapaccess (keyOf lit) l with
  | None => false
  | Some v =>
      match byteContent lit with
      | Some _ => Equals lit (orig v)
      | None => true
      end
  end.
Proof. destruct lit; reflexivity. Qed.

Lemma In_Members (l : literalSet) (e : option Literal) :
  In e (Members l) <->
  exists k v, In (k, v) l /\
    e = match k with KLit x => Some x | KHash _ => orig v end.
Proof.
  unfold Members. rewrite in_map_iff. split.
  - intros ([k v] & <- & Hin). exists k, v. auto.
  - intros (k & v & Hin & ->). exists (k, v). auto.
Qed.

(** A member of a well-formed set sits under the key [addliteral] would
    give it. *)
Lemma member_entry (l : literalSet) (m : Literal) :
  wellFormed l -> In (Some m) (Members l) ->
  exists v, In (keyOf m, v) l /\
    match byteContent m with Some _ => orig v = Some m | None => True end.
Proof.
  intros [Hs _] Hin. apply In_Members in Hin.
  destruct Hin as (k & v & Hin & He).
  pose proof (proj1 (Forall_forall _ _) Hs _ Hin) as Hshape.
  unfold LiteralSets.entryShape in Hshape. simpl in Hshape.
  destruct k as [h|x].
  - destruct Hshape as (m' & b & Ho & Hb & ->).
    rewrite Ho in He. injection He as ->.
    exists v. unfold LiteralSets.keyOf. rewrite Hb. auto.
  - injection He as ->. exists v.
    unfold LiteralSets.keyOf. rewrite Hshape. auto.
Qed.

(** A literal [Equals]-equal to a member is looked up under a key that is
    [==] to the member's, and so finds the member's entry. *)
Lemma member_lookup (l : literalSet) (m lit : Literal) :
  wellFormed l -> In (Some m) (Members l) -> Equals m (Some lit) = true ->
  exists v, mapaccess (keyOf lit) l = Some v /\
    byteContent lit = byteContent m /\
    match byteContent m with Some _ => orig v = Some m | None => True end.
Proof.
  intros Hwf Hm He. simpl in He.
  destruct (member_entry _ _ Hwf Hm) as (v & Hin & Ho).
  pose proof (sameKindAndPayload_byteContent _ _ He) as Hbc.
  assert (Hk : any_eqb (keyOf m) (keyOf lit) = true).
  { unfold LiteralSets.keyOf. rewrite <- Hbc.
    destruct (byteContent m) eqn:Hb; simpl.
    - apply Z.eqb_refl.
    - now apply sameKindAndPayload_any_eqb. }
  exists v. split; [|auto].
  exact (mapaccess_In _ _ _ _ (proj2 Hwf) Hin Hk).
Qed.

Lemma Contains_of_member (l : literalSet) (m lit : Literal) :
  wellFormed l -> In (Some m) (Members l) -> Equals m (Some lit) = true ->
  Contains l lit = true.
Proof.
  intros Hwf Hm He.
  destruct (member_lookup _ _ _ Hwf Hm He) as (v & Ha & Hbc & Ho).
  rewrite Contains_keyOf, Ha, Hbc. destruct (byteContent m); auto.
  rewrite Ho. simpl in *. now rewrite sameKindAndPayload_sym.
Qed.

Lemma member_of_Contains (l : literalSet) (lit : Literal) :
  Contains l lit = true ->
  exists m, In (Some m) (Members l) /\ Equals m (Some lit) = true.
Proof.
  rewrite Contains_keyOf.
  destruct (mapaccess (keyOf lit) l) as [v|] eqn:Ha; [|discriminate].
  destruct (mapaccess_Some _ _ _ Ha) as (k' & Hin & Hk).
  unfold LiteralSets.keyOf in Hk.
  destruct (byteContent lit) as [b|] eqn:Hb.
  - intros He. destruct (orig v) as [m|] eqn:Ho; [|discriminate].
    destruct k' as [h|x]; [|discriminate].
    exists m. split.
    + apply In_Members. exists (KHash h), v. auto.
    + simpl in *. now rewrite sameKindAndPayload_sym.
  - intros _. destruct k' as [h|x]; [discriminate|].
    exists x. split.
    + apply In_Members. exists (KLit x), v. auto.
    + simpl. now apply any_eqb_KLit.
Qed.

(** [Contains] in terms of [Members()]. *)
Lemma Contains_iff_Members (l : literalSet) (lit : Literal) :
  reachable l ->
  Contains l lit = true <->
  exists m, In (Some m) (Members l) /\ Equals m (Some lit) = true.
Proof.
  intros Hr. pose proof (reachable_wellFormed _ Hr) as Hwf. split.
  - apply member_of_Contains.
  - intros (m & Hm & He). exact (Contains_of_member _ _ _ Hwf Hm He).
Qed.

(** ** Add *)

Lemma Add_one (l : literalSet) (v : Literal) :
  Add l [v] = mapassign (keyOf v) (LiteralSets.entryOf v) l.
Proof. simpl. apply addliteral_mapassign. Qed.

Lemma Add_app (l : literalSet) (xs ys : list Literal) :
  Add l (xs ++ ys) = Add (Add l xs) ys.
Proof. apply fold_left_app. Qed.

(** The literal just added is a member. *)
Lemma Add_one_member (l : literalSet) (v : Literal) :
  In (Some v) (Members (Add l [v])).
Proof.
  rewrite Add_one. apply In_Members.
  exists (keyOf v), (LiteralSets.entryOf v). split; [apply mapassign_In|].
  unfold LiteralSets.keyOf, LiteralSets.entryOf.
  destruct (byteContent v); reflexivity.
Qed.

Lemma Len_Add_member (l : literalSet) (m y : Literal) :
  wellFormed l -> In (Some m) (Members l) -> Equals m (Some y) = true ->
  Len (Add l [y]) = Len l.
Proof.
  intros Hwf Hm He.
  destruct (member_lookup _ _ _ Hwf Hm He) as (v & Ha & _).
  unfold Len. rewrite Add_one, mapassign_length, Ha. reflexivity.
Qed.

Lemma Len_Add_repeat (l : literalSet) (x : Literal) (n : nat) :
  wellFormed l -> In (Some x) (Members l) -> Equals x (Some x) = true ->
  Len (Add l (repeat x n)) = Len l.
Proof.
  intros Hwf Hm He. revert l Hwf Hm.
  induction n as [|n IH]; intros l Hwf Hm; [reflexivity|].
  change (repeat x (S n)) with ([x] ++ repeat x n). rewrite Add_app.
  rewrite IH.
  - now apply Len_Add_member with x.
  - now apply wellFormed_Add.
  - apply Add_one_member.
Qed.

(** An entry stays when the assigned key is not [==] to its key. *)
Lemma mapassign_keeps (k k' : any) (v v' : entry) (l : literalSet) :
  In (k', v') l -> any_eqb k' k = false -> In (k', v') (mapassign k v l).
Proof.
  induction l as [|[k0 v0] l IH]; simpl; [tauto|].
  intros [[= -> ->]|Hin] Hk.
  - rewrite Hk. now left.
  - destruct (any_eqb k0 k); simpl; auto.
Qed.

(** What [Add] does keep: a member stays as long as no added literal is
    stored under a key [==] to the member's key. *)
Lemma Add_keeps_member (ys : list Literal) (l : literalSet) (x : Literal) :
  wellFormed l -> In (Some x) (Members l) ->
  (forall y, In y ys -> any_eqb (keyOf x) (keyOf y) = false) ->
  In (Some x) (Members (Add l ys)).
Proof.
  revert l; induction ys as [|y ys IH]; intros l Hwf Hm Hys; [assumption|].
  simpl. apply IH.
  - now apply wellFormed_addliteral.
  - destruct (member_entry _ _ Hwf Hm) as (v & Hin & Ho).
    apply In_Members. exists (keyOf x), v. split.
    + rewrite addliteral_mapassign. apply mapassign_keeps; auto.
      apply Hys. now left.
    + unfold LiteralSets.keyOf in *. destruct (byteContent x); auto.
  - intros y' Hy'. apply Hys. now right.
Qed.

(** X6.  A member that is not a Binary or Fixed literal stays a member through
    any [Add] of literals that are not [Equals]-equal to it. *)
Lemma Add_keeps_scalar_member (ys : list Literal) (l : literalSet) (x : Literal) :
  wellFormed l -> In (Some x) (Members l) -> byteContent x = None ->
  (forall y, In y ys -> Equals y (Some x) = false) ->
  In (Some x) (Members (Add l ys)).
Proof.
  intros Hwf Hm Hx Hys. apply Add_keeps_member; auto.
  intros y Hy. specialize (Hys y Hy). simpl in Hys.
  unfold LiteralSets.keyOf. rewrite Hx.
  destruct (byteContent y) eqn:Hb; [reflexivity|].
  destruct (any_eqb (KLit x) (KLit y)) eqn:E; [|reflexivity].
  apply any_eqb_KLit in E. rewrite sameKindAndPayload_sym in E. congruence.
Qed.

(** C6.  In every set made by [newLiteralSet] and [Add]: adding a literal
    [Equals]-equal to a member leaves [Len()] unchanged; so does adding an
    [Equals]-equal literal right after a literal, and adding a literal
    again any number of times; and after adding a Binary (or a Fixed)
    literal, adding a second one with the same bytes leaves [Len()]
    unchanged and [Contains] of it is true. *)
Theorem Add_idempotent (l : literalSet) :
  reachable l ->
  (forall m y, In (Some m) (Members l) -> Equals m (Some y) = true ->
     Len (Add l [y]) = Len l)
  /\ (forall x y, Equals x (Some y) = true ->
       Len (Add (Add l [x]) [y]) = Len (Add l [x]))
  /\ (forall x n, Equals x (Some x) = true ->
       Len (Add (Add l [x]) (repeat x n)) = Len (Add l [x]))
  /\ (forall b,
       Len (Add (Add l [BinaryLiteral b]) [BinaryLiteral b])
         = Len (Add l [BinaryLiteral b])
       /\ Contains (Add (Add l [BinaryLiteral b]) [BinaryLiteral b])
            (BinaryLiteral b) = true)
  /\ (forall b,
       Len (Add (Add l [FixedLiteral b]) [FixedLiteral b])
         = Len (Add l [FixedLiteral b])
       /\ Contains (Add (Add l [FixedLiteral b]) [FixedLiteral b])
            (FixedLiteral b) = true).
Proof.
  intros Hr. pose proof (reachable_wellFormed _ Hr) as Hwf.
  assert (Hwf1 : forall x, wellFormed (Add l [x]))
    by (intros x; now apply wellFormed_Add).
  assert (Hself : forall x, Equals x (Some x) = true ->
            Len (Add (Add l [x]) [x]) = Len (Add l [x])
            /\ Contains (Add (Add l [x]) [x]) x = true).
  { intros x Hx. split.
    - apply Len_Add_member with x; auto. apply Add_one_member.
    - apply Contains_of_member with x; auto.
      + now apply wellFormed_Add.
      + apply Add_one_member. }
  repeat split.
  - intros m y. now apply Len_Add_member.
  - intros x y He. apply Len_Add_member with x; auto. apply Add_one_member.
  - intros x n He. apply Len_Add_repeat; auto. apply Add_one_member.
  - apply Hself. simpl. apply bytes_eqb_refl.
  - apply Hself. simpl. apply bytes_eqb_refl.
  - apply Hself. simpl. apply bytes_eqb_refl.
  - apply Hself. simpl. apply bytes_eqb_refl.
Qed.

(** ** Members *)

Lemma Members_length (l : literalSet) :
  Z.of_nat (List.length (Members l)) = Len l.
Proof. unfold Members, Len. now rewrite length_map. Qed.

(** Only a NaN float is not [Equals]-equal to itself. *)
Lemma Equals_self (m : Literal) :
  Equals m (Some m) = false <->
  m = Float32Literal S754_nan \/ m = Float64Literal S754_nan.
Proof.
  split.
  - destruct m; simpl;
      rewrite ?Z.eqb_refl, ?String.eqb_refl, ?bytes_eqb_refl, ?Bool.eqb_reflx;
      try discriminate.
    + destruct v; auto; intros H; exfalso;
        revert H; apply not_false_iff_true, SFeqb_true; simpl; auto.
    + destruct v; auto; intros H; exfalso;
        revert H; apply not_false_iff_true, SFeqb_true; simpl; auto.
  - intros [->| ->]; reflexivity.
Qed.

(** C10 (as the code has it).  In every set made by [newLiteralSet] and
    [Add], [Members()] has exactly [Len()] elements, none of them nil, and
    every element that is [Equals]-equal to itself, that is every element
    but a NaN Float32 or Float64 literal, satisfies [Contains]. *)
Theorem Members_Len_Contains (l : literalSet) :
  reachable l ->
  Z.of_nat (List.length (Members l)) = Len l
  /\ forall e, In e (Members l) ->
       exists m, e = Some m
         /\ (m <> Float32Literal S754_nan -> m <> Float64Literal S754_nan ->
             Contains l m = true).
Proof.
  intros Hr. pose proof (reachable_wellFormed _ Hr) as Hwf.
  split; [apply Members_length|].
  intros e He.
  assert (Hm : exists m, e = Some m).
  { apply In_Members in He. destruct He as (k & v & Hin & ->).
    pose proof (proj1 (Forall_forall _ _) (proj1 Hwf) _ Hin) as Hs.
    unfold LiteralSets.entryShape in Hs. simpl in Hs.
    destruct k as [h|x]; [|eauto].
    destruct Hs as (m & _ & -> & _). eauto. }
  destruct Hm as (m & ->). exists m. split; [reflexivity|].
  intros H32 H64. apply Contains_of_member with m; auto.
  destruct (Equals m (Some m)) eqn:E; [reflexivity|].
  apply Equals_self in E. tauto.
Qed.

(** C2, on the code.  A set holding the Fixed literal of bytes [b], to
    which the Binary literal of the same bytes is added: the two are not
    [Equals]-equal, yet the Fixed literal is a member before the call and
    not after it; the entry stored under the hash of [b] was overwritten. *)
Theorem Add_overwrites_same_hash (b : bytes) :
  let l := newLiteralSet [FixedLiteral b] in
  let l' := Add l [BinaryLiteral b] in
  Members l = [Some (FixedLiteral b)]
  /\ Contains l (FixedLiteral b) = true
  /\ Equals (BinaryLiteral b) (Some (FixedLiteral b)) = false
  /\ Members l' = [Some (BinaryLiteral b)]
  /\ Contains l' (FixedLiteral b) = false
  /\ Len l' = Len l.
Proof.
  simpl. unfold LiteralSets.Contains. simpl.
  rewrite Z.eqb_refl. simpl. rewrite Z.eqb_refl. simpl.
  rewrite bytes_eqb_refl. repeat split.
Qed.

End WithHash.

(** ** The theorems at concrete sets *)

Lemma Add_idempotent_witness :
  let l := Add lengthHash (newLiteralSet lengthHash [StringLiteral "a"])
             [Float64Literal (S754_zero false)] in
  reachable lengthHash l
  /\ Len (Add lengthHash (Add lengthHash l [BinaryLiteral [x01; x02]])
            [BinaryLiteral [x01; x02]])
     = Len (Add lengthHash l [BinaryLiteral [x01; x02]]).
Proof.
  split; [repeat constructor|].
  apply (Add_idempotent lengthHash); repeat constructor.
Defined.

Lemma Members_Len_Contains_witness :
  let l := newLiteralSet lengthHash
             [BinaryLiteral [x01]; Float32Literal S754_nan; BoolLiteral true] in
  reachable lengthHash l
  /\ Z.of_nat (List.length (Members l)) = Len l.
Proof.
  split; [constructor | apply (Members_Len_Contains lengthHash); constructor].
Defined.

(** C10, as stated, fails on a set holding a NaN: the NaN is an element of
    [Members()], and [Contains] of it is false, since the map lookup
    compares keys with [==]. *)
Lemma NaN_member_not_contained :
  let l := newLiteralSet lengthHash [Float64Literal S754_nan] in
  reachable lengthHash l
  /\ Members l = [Some (Float64Literal S754_nan)]
  /\ Len l = 1
  /\ Contains lengthHash l (Float64Literal S754_nan) = false.
Proof. repeat split. constructor. Qed.

End LiteralSetFacts.

(* ===================================================================== *)
(** * Properties of accessor.Get *)
(* ===================================================================== *)

Module AccessorFacts.
Import Accessors.

(** Without a continuation [Get] is the row's own [Get]. *)
Lemma Get_leaf (p : Z) (s : structLike) :
  Get (mkAccessor p None) s = structGet s p.
Proof.
  unfold Get. simpl. destruct (structGet s p) as [v|e]; [|reflexivity].
  destruct v; reflexivity.
Qed.

(** One turn of the loop: on a row, the descent goes on in that row with
    the continuation. *)
Lemma descend_struct (p : Z) (nxt : accessor) (s : structLike) :
  descend (VStruct s) (mkAccessor p (Some nxt)) = Get nxt s.
Proof. reflexivity. Qed.

Lemma descend_nil (a : accessor) : descend VNil a = Ret VNil.
Proof. destruct a; reflexivity. Qed.

(** C5 (as the code has it).  For an accessor with a continuation [nxt]
    and a row whose column at the accessor's position holds [v]: when [v]
    is a structured row, [Get] is [nxt]'s [Get] on that row; when [v] is
    nil, [Get] returns nil and does not fail; when [v] is neither, the type
    assertion [val.(structLike)] panics. *)
Theorem Get_continuation (a nxt : accessor) (s : structLike) (v : value) :
  inner a = Some nxt ->
  structGet s (pos a) = Ret v ->
  match v with
  | VStruct s' => Get a s = Get nxt s'
  | VNil => Get a s = Ret VNil
  | _ => Get a s = Panics (NotStructLike v)
  end.
Proof.
  destruct a as [p i]. simpl. intros -> Hv.
  destruct v; unfold Get at 1; simpl; rewrite Hv; reflexivity.
Qed.

Lemma Get_continuation_witness :
  inner (mkAccessor 1 (Some (mkAccessor 0 None))) = Some (mkAccessor 0 None)
  /\ structGet [VInt 4; VNil] (pos (mkAccessor 1 (Some (mkAccessor 0 None))))
     = Ret VNil
  /\ Get (mkAccessor 1 (Some (mkAccessor 0 None))) [VInt 4; VNil] = Ret VNil.
Proof.
  split; [reflexivity|]. split; [reflexivity|].
  apply (Get_continuation (mkAccessor 1 (Some (mkAccessor 0 None)))
           (mkAccessor 0 None) [VInt 4; VNil] VNil); reflexivity.
Defined.

(** C5, as stated, fails on a column that holds a value which is neither
    nil nor a row: [Get] does not return that value, it panics. *)
Lemma Get_scalar_with_continuation_panics :
  let a := mkAccessor 0 (Some (mkAccessor 0 None)) in
  inner a = Some (mkAccessor 0 None)
  /\ structGet [VInt 5] (pos a) = Ret (VInt 5)
  /\ Get a [VInt 5] = Panics (NotStructLike (VInt 5))
  /\ Get a [VInt 5] <> Ret (VInt 5).
Proof. repeat split. discriminate. Qed.

(** C8.  A two-level accessor (outer position [p], inner position [q]) on
    a row whose column [p] holds a structured row gives what indexing by
    hand gives: [row.Get(p)], then [.Get(q)] on the result. *)
Theorem Get_two_levels (p q : Z) (row nested : structLike) :
  structGet row p = Ret (VStruct nested) ->
  Get (mkAccessor p (Some (mkAccessor q None))) row = structGet nested q.
Proof.
  intros Hp. unfold Get. simpl. rewrite Hp. simpl.
  destruct (structGet nested q) as [v|e]; [|reflexivity].
  destruct v; reflexivity.
Qed.

Lemma Get_two_levels_witness :
  structGet [VInt 1; VStruct [VString "x"; VBool true]] 1
    = Ret (VStruct [VString "x"; VBool true])
  /\ Get (mkAccessor 1 (Some (mkAccessor 0 None)))
       [VInt 1; VStruct [VString "x"; VBool true]]
     = structGet [VString "x"; VBool true] 0.
Proof.
  split; [reflexivity|].
  apply (Get_two_levels 1 0 [VInt 1; VStruct [VString "x"; VBool true]]
           [VString "x"; VBool true]).
  reflexivity.
Defined.

End AccessorFacts.

(* ===================================================================== *)
(** * Properties of the schema translation *)
(* ===================================================================== *)

Module AvroSchemaFacts.
Import AvroSchemas.
Local Open Scope string_scope.

Lemma validateName_uuid_fixed : validateName "uuid_fixed" = None.
Proof. reflexivity. Qed.

Lemma validateName_r102 : validateName "r102" = None.
Proof. reflexivity. Qed.

(** A union of null and a schema that is neither null nor a union is
    accepted. *)
Lemma NewUnionSchema_null_first (sch : Schema) :
  isUnion sch = false -> schemaTypeName sch <> "null" ->
  NewUnionSchema [NewNullSchema; sch] = Ok (UnionSchema [NullSchema; sch]).
Proof.
  intros Hu Hn. unfold NewUnionSchema. simpl. rewrite Hu. simpl.
  destruct (String.eqb_spec (schemaTypeName sch) "null"); [contradiction|].
  reflexivity.
Qed.

(** C4.  For every field of a supported type the translation gives a
    schema: for a required field a schema [sch] that is no union (and not
    null), for a field that is not required the two-branch union of null,
    first, and that same [sch].  The tree of (id=1, Int64, required) and
    (id=2, String, optional), under any two names the schema builder
    accepts, becomes the record whose field 1 has type long and whose
    field 2 has type union of null and string. *)
Theorem optional_is_null_first_union :
  (forall f, supported (Type_ f) = true ->
     exists sch,
       isUnion sch = false /\ sch <> NullSchema
       /\ nestedFieldToAvroSchema (withRequired true f) = Ok sch
       /\ nestedFieldToAvroSchema (withRequired false f)
            = Ok (UnionSchema [NullSchema; sch])
       /\ nestedFieldToAvroSchema f
            = Ok (if Required f then sch else UnionSchema [NullSchema; sch]))
  /\ (forall n1 n2 d1 d2,
        validateName n1 = None -> validateName n2 = None ->
        structTypeToAvroPartitionSchema
          [mkNestedField 1 n1 Int64Type true d1;
           mkNestedField 2 n2 StringType false d2]
        = Ok (RecordSchema "r102" ""
                [mkField n1 (PrimitiveSchema Long None []) d1
                   [("field-id", PInt 1)];
                 mkField n2
                   (UnionSchema [NullSchema; PrimitiveSchema String_ None []])
                   d2 [("field-id", PInt 2)]])).
Proof.
  split.
  - intros [id name t req doc] Hs. simpl in Hs.
    exists (match nestedFieldToAvroSchema (mkNestedField id name t true doc) with
            | Ok s => s
            | Err _ => NullSchema
            end).
    destruct t; try discriminate Hs; destruct req;
      repeat split; try reflexivity; discriminate.
  - intros n1 n2 d1 d2 H1 H2.
    unfold structTypeToAvroPartitionSchema, translateFields,
      nestedFieldToAvroField, NewField. simpl.
    rewrite H1, H2. reflexivity.
Qed.

Lemma optional_is_null_first_union_witness :
  validateName "id" = None /\ validateName "name" = None
  /\ structTypeToAvroPartitionSchema
       [mkNestedField 1 "id" Int64Type true "";
        mkNestedField 2 "name" StringType false "the name"]
     = Ok (RecordSchema "r102" ""
             [mkField "id" (PrimitiveSchema Long None []) ""
                [("field-id", PInt 1)];
              mkField "name"
                (UnionSchema [NullSchema; PrimitiveSchema String_ None []])
                "the name" [("field-id", PInt 2)]]).
Proof.
  split; [reflexivity|]. split; [reflexivity|].
  apply (proj2 optional_is_null_first_union); reflexivity.
Defined.

(** C9.  Two field definitions that differ only in the type, Timestamp in
    one and TimestampTz in the other: both translate to the 64-bit integer
    with the time-micros annotation, under the same nullability wrapper,
    the first with adjust-to-utc = false and the second with
    adjust-to-utc = true, and to nothing else; the two translated fields
    agree on name, doc and field-id (or the builder refuses the name of
    both). *)
Theorem timestamp_schemas_differ_in_utc_flag (f : NestedField) :
  let ts := withType TimestampType f in
  let tz := withType TimestampTzType f in
  nestedFieldToAvroSchema ts = Ok (timestampSchema (Required f) false)
  /\ nestedFieldToAvroSchema tz = Ok (timestampSchema (Required f) true)
  /\ nestedFieldToAvroSchema ts <> nestedFieldToAvroSchema tz
  /\ match nestedFieldToAvroField ts, nestedFieldToAvroField tz with
     | Ok f1, Ok f2 =>
         fieldName f1 = fieldName f2 /\ fieldDoc f1 = fieldDoc f2
         /\ fieldProps f1 = fieldProps f2
         /\ fieldType f1 = timestampSchema (Required f) false
         /\ fieldType f2 = timestampSchema (Required f) true
     | Err e1, Err e2 => e1 = e2
     | _, _ => False
     end.
Proof.
  destruct f as [id name t req doc]. simpl.
  unfold nestedFieldToAvroField, nestedFieldToAvroSchema, NewField. simpl.
  destruct req; simpl; (repeat split; [discriminate|]);
    destruct (validateName name); simpl; auto.
Qed.

(** ** Unsupported types *)

Lemma unsupported_schema_error (f : NestedField) :
  supported (Type_ f) = false ->
  nestedFieldToAvroSchema f
  = Err (Errorf ("unsupported Iceberg type: " ++ TypeString (Type_ f))).
Proof.
  unfold nestedFieldToAvroSchema. destruct (Type_ f); try discriminate.
  reflexivity.
Qed.

Lemma unsupported_field_error (f : NestedField) :
  supported (Type_ f) = false ->
  nestedFieldToAvroField f
  = Err (Errorf ("unsupported Iceberg type: " ++ TypeString (Type_ f))).
Proof.
  intros H. unfold nestedFieldToAvroField.
  now rewrite unsupported_schema_error.
Qed.

(** The loop stops at the first field whose translation fails, with that
    field's error. *)
Lemma translateFields_first_error (pre : list NestedField) (f : NestedField)
    (post : list NestedField) (e : error) (aFields : list Field) :
  (forall g, In g pre -> exists a, nestedFieldToAvroField g = Ok a) ->
  nestedFieldToAvroField f = Err e ->
  translateFields (pre ++ f :: post) aFields = Err e.
Proof.
  revert aFields; induction pre as [|g pre IH]; intros aFields Hpre Hf; simpl.
  - now rewrite Hf.
  - destruct (Hpre g (or_introl eq_refl)) as [a Ha]. rewrite Ha.
    apply IH; auto. intros g' Hg'. apply Hpre. now right.
Qed.

(** With a field of an unsupported type anywhere, the loop fails. *)
Lemma translateFields_unsupported (st : list NestedField) (aFields : list Field) :
  (exists f, In f st /\ supported (Type_ f) = false) ->
  exists e, translateFields st aFields = Err e.
Proof.
  revert aFields; induction st as [|g st IH]; intros aFields (f & Hin & Hf).
  - destruct Hin.
  - simpl. destruct (nestedFieldToAvroField g) as [a|e] eqn:Hg; [|eauto].
    apply IH. exists f. split; [|assumption].
    destruct Hin as [->|Hin]; [|assumption].
    rewrite (unsupported_field_error _ Hf) in Hg. discriminate.
Qed.

(** C7 (as the code has it).  When some field of the list has a type
    outside the supported set, the translation of the list fails and gives
    no schema.  The error is that of the first field that fails: for a
    field of an unsupported type all of whose predecessors translate, it is
    the error that names this field's type. *)
Theorem unsupported_type_fails :
  (forall st, (exists f, In f st /\ supported (Type_ f) = false) ->
     exists e, structTypeToAvroPartitionSchema st = Err e)
  /\ (forall pre f post,
        supported (Type_ f) = false ->
        (forall g, In g pre -> exists a, nestedFieldToAvroField g = Ok a) ->
        structTypeToAvroPartitionSchema (pre ++ f :: post)
        = Err (Errorf ("unsupported Iceberg type: " ++ TypeString (Type_ f)))).
Proof.
  split.
  - intros st H. unfold structTypeToAvroPartitionSchema.
    destruct (translateFields_unsupported st [] H) as [e ->]. eauto.
  - intros pre f post Hf Hpre. unfold structTypeToAvroPartitionSchema.
    rewrite (translateFields_first_error pre f post _ [] Hpre
               (unsupported_field_error f Hf)).
    reflexivity.
Qed.

Lemma unsupported_type_fails_witness :
  let f := mkNestedField 2 "tags" (OtherType "list<string>") false "" in
  supported (Type_ f) = false
  /\ structTypeToAvroPartitionSchema
       ([mkNestedField 1 "id" Int64Type true ""] ++ f
          :: [mkNestedField 3 "ts" TimestampType false ""])
     = Err (Errorf "unsupported Iceberg type: list<string>").
Proof.
  split; [reflexivity|].
  apply (proj2 unsupported_type_fails
           [mkNestedField 1 "id" Int64Type true ""]
           (mkNestedField 2 "tags" (OtherType "list<string>") false "")).
  - reflexivity.
  - intros g [<-|[]]. eexists. reflexivity.
Defined.

(** C7, as stated, fails when the field of an unsupported type is not the
    first to fail.  After another field of an unsupported type, the error
    names that other type; after a field whose name the schema builder
    refuses, the error is the builder's and names no type. *)
Lemma unsupported_type_not_named :
  let l := mkNestedField 1 "a" (OtherType "list<int>") true "" in
  let m := mkNestedField 2 "b" (OtherType "map<string, int>") true "" in
  let s := mkNestedField 1 "a-b" StringType true "" in
  (In m [l; m] /\ supported (Type_ m) = false
   /\ structTypeToAvroPartitionSchema [l; m]
      = Err (Errorf "unsupported Iceberg type: list<int>")
   /\ structTypeToAvroPartitionSchema [l; m]
      <> Err (Errorf ("unsupported Iceberg type: " ++ TypeString (Type_ m))))
  /\ (In m [s; m]
      /\ structTypeToAvroPartitionSchema [s; m] = Err (AvroInvalidName "a-b")
      /\ structTypeToAvroPartitionSchema [s; m]
         <> Err (Errorf ("unsupported Iceberg type: " ++ TypeString (Type_ m)))).
Proof.
  simpl. repeat split; auto; discriminate.
Qed.

End AvroSchemaFacts.

(* ===================================================================== *)
(** * Properties of avroEncode *)
(* ===================================================================== *)

Module AvroEncodeFacts.
Import AvroEncode.

Section Encoder.

Variables (Schema T Encoder World Error : Type).
Variable NewEncoderWithSchema :
  Schema -> encoderConfig -> World -> (Error + Encoder) * World.
Variable Encode : Encoder -> T -> World -> option Error * World.
Variable Close : Encoder -> World -> option Error * World.

(** Either every record of [vals] is encoded, or there is a first one
    whose encoding fails. *)
Lemma encodes_or_fails (enc : Encoder) (vals : list T) (w : World) :
  (exists w', encodes Encode enc vals w w')
  \/ (exists pre file post w2 err w3,
        vals = pre ++ file :: post
        /\ encodes Encode enc pre w w2
        /\ Encode enc file w2 = (Some err, w3)).
Proof.
  revert w; induction vals as [|file rest IH]; intros w.
  - left. exists w. constructor.
  - destruct (Encode enc file w) as [[err|] w1] eqn:E.
    + right. exists [], file, rest, w, err, w1. repeat split; [constructor | exact E].
    + destruct (IH w1) as [[w' H]|(pre & f & post & w2 & err & w3 & -> & H & Hf)].
      * left. exists w'. econstructor; eauto.
      * right. exists (file :: pre), f, post, w2, err, w3.
        repeat split; [econstructor; eauto | exact Hf].
Qed.

(** The loop on the recording encoder, over records that all encode. *)
Lemma encodeLoop_encodes (enc : Encoder) (vals : list T) (w w' : World)
    (log : list (call T)) :
  encodes Encode enc vals w w' ->
  encodeLoop (recEncode Encode) enc vals (w, log)
  = (None, (w', log ++ map CallEncode vals)).
Proof.
  intros H; revert log; induction H as [enc w|enc file rest w w1 w' E H IH];
    intros log; simpl.
  - now rewrite app_nil_r.
  - unfold recEncode at 1. simpl. rewrite E, IH, <- app_assoc. reflexivity.
Qed.

(** The loop returns at the first record whose encoding fails; the
    records after it are not touched. *)
Lemma encodeLoop_fails (enc : Encoder) (pre : list T) (file : T) (post : list T)
    (w w2 w3 : World) (err : Error) (log : list (call T)) :
  encodes Encode enc pre w w2 ->
  Encode enc file w2 = (Some err, w3) ->
  encodeLoop (recEncode Encode) enc (pre ++ file :: post) (w, log)
  = (Some err, (w3, log ++ map CallEncode pre ++ [CallEncode file])).
Proof.
  intros H; revert log; induction H as [enc w|enc f rest w w1 w' E H IH];
    intros log Hf; simpl.
  - unfold recEncode. simpl. now rewrite Hf.
  - unfold recEncode at 1. simpl. rewrite E, (IH _ Hf), <- app_assoc.
    reflexivity.
Qed.

(** C3 (as the code has it).  [avroEncode] run on any encoder, with the
    calls it makes recorded.  When the constructor fails, its error is
    returned and nothing else is called.  When the encoding of a record
    fails, that error is returned at once: the records after it are not
    encoded and [Close] is not called.  When every record is encoded,
    [Close] is called last and its result is returned. *)
Theorem avroEncode_paths (sch : Schema) (version : Z) (w : World) :
  (forall err w1,
     NewEncoderWithSchema sch (configOf version) w = (inl err, w1) ->
     forall vals,
       avroEncodeRec NewEncoderWithSchema Encode Close sch version vals w
       = (Some err, (w1, [CallNew (configOf version)])))
  /\ (forall enc w1 pre file post w2 err w3,
        NewEncoderWithSchema sch (configOf version) w = (inr enc, w1) ->
        encodes Encode enc pre w1 w2 ->
        Encode enc file w2 = (Some err, w3) ->
        avroEncodeRec NewEncoderWithSchema Encode Close sch version
          (pre ++ file :: post) w
        = (Some err,
           (w3, CallNew (configOf version)
                  :: map CallEncode pre ++ [CallEncode file])))
  /\ (forall enc w1 vals w2,
        NewEncoderWithSchema sch (configOf version) w = (inr enc, w1) ->
        encodes Encode enc vals w1 w2 ->
        avroEncodeRec NewEncoderWithSchema Encode Close sch version vals w
        = (fst (Close enc w2),
           (snd (Close enc w2),
            CallNew (configOf version)
              :: map CallEncode vals ++ [CallClose]))).
Proof.
  unfold avroEncodeRec, avroEncode. fold (configOf version).
  repeat split.
  - intros err w1 Hn vals. unfold recNew. simpl. now rewrite Hn.
  - intros enc w1 pre file post w2 err w3 Hn Hp Hf.
    unfold recNew. simpl. rewrite Hn.
    now rewrite (encodeLoop_fails enc pre file post w1 w2 w3 err _ Hp Hf).
  - intros enc w1 vals w2 Hn Hv.
    unfold recNew. simpl. rewrite Hn.
    rewrite (encodeLoop_encodes enc vals w1 w2 _ Hv).
    unfold recClose. simpl. destruct (Close enc w2) as [r w']. reflexivity.
Qed.

End Encoder.

Lemma avroEncode_paths_witness :
  toyNew true (configOf 2) [] = (inr tt, [])
  /\ encodes toyEncode tt [1; 2] [] [1; 2]
  /\ toyAvroEncode 2 [1; 2]
     = (None, ([1; 2],
               [CallNew (configOf 2); CallEncode 1; CallEncode 2; CallClose])).
Proof.
  assert (H : encodes toyEncode tt [1; 2] [] [1; 2])
    by (repeat econstructor).
  split; [reflexivity|]. split; [exact H|].
  exact (proj2 (proj2 (avroEncode_paths _ _ _ _ _ toyNew toyEncode toyClose
                         true 2 [])) tt [] [1; 2] [1; 2] eq_refl H).
Defined.

(** C3, as stated, fails on the path of a record that cannot be encoded:
    the error comes back, and the calls made are the constructor and two
    [Encode]s; the encoder is not closed, so what it buffered is not
    flushed to the sink. *)
Lemma failed_record_leaves_encoder_open :
  toyAvroEncode 2 [1; -1; 2]
  = (Some (BadRecord (-1)),
     ([1], [CallNew (configOf 2); CallEncode 1; CallEncode (-1)]))
  /\ ~ In CallClose (snd (snd (toyAvroEncode 2 [1; -1; 2]))).
Proof.
  split; [reflexivity|].
  simpl. intros [H|[H|[H|[]]]]; discriminate.
Qed.

End AvroEncodeFacts.

(* ===================================================================== *)
(** * Further properties of literalSet *)
(* ===================================================================== *)

Module LiteralSetMore.
Import Literals LiteralSets LiteralSetFacts LiteralSetOps.

Lemma SFeqb_trans (x y z : spec_float) :
  SFeqb x y = true -> SFeqb y z = true -> SFeqb x z = true.
Proof.
  intros Hxy Hyz. apply SFeqb_euclid with y; [assumption|].
  now rewrite SFeqb_sym.
Qed.

Lemma sameKindAndPayload_trans (a b c : Literal) :
  sameKindAndPayload a b = true -> sameKindAndPayload b c = true ->
  sameKindAndPayload a c = true.
Proof.
  destruct a, b; simpl; try discriminate; destruct c; simpl;
    try discriminate;
    rewrite ?Z.eqb_eq, ?String.eqb_eq, ?bytes_eqb_true, ?Bool.eqb_true_iff;
    try congruence.
  all: apply SFeqb_trans.
Qed.

Lemma any_eqb_trans (k1 k2 k3 : any) :
  any_eqb k1 k2 = true -> any_eqb k2 k3 = true -> any_eqb k1 k3 = true.
Proof.
  intros H12 H23. apply any_eqb_euclid with k2; [assumption|].
  now rewrite any_eqb_sym.
Qed.

Lemma origEq_sym (v1 v2 : entry) : origEq v1 v2 = origEq v2 v1.
Proof.
  unfold origEq. destruct (orig v1), (orig v2); simpl; auto.
  apply sameKindAndPayload_sym.
Qed.

(** A key that is not [==] to itself is a NaN float. *)
Lemma any_eqb_irrefl (k : any) :
  any_eqb k k = false ->
  byteContent (match k with KLit x => x | KHash _ => BoolLiteral true end) = None ->
  k = KLit (Float32Literal S754_nan) \/ k = KLit (Float64Literal S754_nan).
Proof.
  destruct k as [h|x].
  - simpl. rewrite Z.eqb_refl. discriminate.
  - intros H Hb.
    assert (E : Equals x (Some x) = false).
    { destruct (Equals x (Some x)) eqn:E; [|reflexivity].
      simpl in E. rewrite (sameKindAndPayload_any_eqb _ _ Hb E) in H.
      discriminate. }
    apply Equals_self in E. destruct E as [-> | ->]; auto.
Qed.

(** ** maps.EqualFunc *)

Lemma maps_EqualFunc_true (l1 l2 : literalSet) :
  maps_EqualFunc l1 l2 origEq = true <->
  List.length l1 = List.length l2 /\ covers l1 l2.
Proof.
  unfold maps_EqualFunc, covers.
  destruct (Nat.eqb_spec (List.length l1) (List.length l2)) as [E|E]; simpl.
  - rewrite forallb_forall. split.
    + intros H. split; [assumption|]. intros k v1 Hin.
      specialize (H _ Hin). simpl in H.
      destruct (mapaccess k l2) as [v2|]; [eauto | discriminate].
    + intros [_ H] [k v1] Hin. simpl.
      destruct (H _ _ Hin) as (v2 & -> & Ho). exact Ho.
  - split; [discriminate | intros [? _]; contradiction].
Qed.

Lemma distinctKeys_remove (A B : literalSet) (kv : any * entry) :
  distinctKeys (A ++ kv :: B) -> distinctKeys (A ++ B).
Proof.
  induction A as [|[k v] A IH]; simpl; intros H; inversion H; subst; auto.
  constructor; auto.
  intros kv' Hin. apply H2. apply in_app_iff in Hin. apply in_app_iff.
  destruct Hin; [left | right; right]; assumption.
Qed.

(** Two maps of the same size with distinct keys: when every key of the
    first is [==] to a key of the second, every key of the second is [==]
    to a key of the first. *)
Lemma keys_onto (l1 : literalSet) :
  forall l2, distinctKeys l1 -> distinctKeys l2 ->
  List.length l1 = List.length l2 ->
  (forall kv, In kv l1 ->
     exists kv2, In kv2 l2 /\ any_eqb (fst kv2) (fst kv) = true) ->
  forall kv2, In kv2 l2 ->
    exists kv, In kv l1 /\ any_eqb (fst kv2) (fst kv) = true.
Proof.
  induction l1 as [|[k v] l1 IH]; intros l2 Hd1 Hd2 Hlen Hall kv2 Hin2.
  - destruct l2; [destruct Hin2 | discriminate].
  - destruct (Hall (k, v) (or_introl eq_refl)) as (kv0 & Hin0 & Hk0).
    simpl in Hk0.
    destruct (in_split _ _ Hin0) as (A & B & ->).
    inversion Hd1 as [|? ? ? Hk Hd1']; subst.
    assert (Hlen' : List.length l1 = List.length (A ++ B)).
    { rewrite length_app in *. simpl in Hlen. lia. }
    assert (Hall' : forall kv, In kv l1 ->
              exists kv2, In kv2 (A ++ B) /\ any_eqb (fst kv2) (fst kv) = true).
    { intros kv Hin. destruct (Hall kv (or_intror Hin)) as (kv' & Hin' & Hk').
      exists kv'. split; [|assumption].
      apply in_app_iff in Hin'. apply in_app_iff.
      destruct Hin' as [?|[<-|?]]; auto.
      exfalso. specialize (Hk _ Hin).
      rewrite any_eqb_sym in Hk'. rewrite any_eqb_sym in Hk0.
      rewrite (any_eqb_euclid _ _ _ Hk' Hk0) in Hk. discriminate. }
    apply in_app_iff in Hin2. destruct Hin2 as [Hin2|[<-|Hin2]].
    + destruct (IH _ Hd1' (distinctKeys_remove _ _ _ Hd2) Hlen' Hall' kv2)
        as (kv & Hin & Hkv); [apply in_app_iff; auto|].
      exists kv. split; [now right | assumption].
    + exists (k, v). split; [now left | assumption].
    + destruct (IH _ Hd1' (distinctKeys_remove _ _ _ Hd2) Hlen' Hall' kv2)
        as (kv & Hin & Hkv); [apply in_app_iff; auto|].
      exists kv. split; [now right | assumption].
Qed.

Lemma covers_sym (l1 l2 : literalSet) :
  distinctKeys l1 -> distinctKeys l2 ->
  List.length l1 = List.length l2 ->
  covers l1 l2 -> covers l2 l1.
Proof.
  intros Hd1 Hd2 Hlen Hc k2 v2 Hin2.
  assert (Hall : forall kv, In kv l1 ->
            exists kv2, In kv2 l2 /\ any_eqb (fst kv2) (fst kv) = true).
  { intros [k v1] Hin. destruct (Hc _ _ Hin) as (v2' & Ha & _).
    destruct (mapaccess_Some _ _ _ Ha) as (k' & Hin' & Hk').
    exists (k', v2'). auto. }
  destruct (keys_onto l1 l2 Hd1 Hd2 Hlen Hall _ Hin2) as ([k1 v1] & Hin1 & Hk).
  simpl in Hk.
  destruct (Hc _ _ Hin1) as (v2' & Ha & Ho).
  rewrite (mapaccess_In _ _ _ _ Hd2 Hin2 Hk) in Ha. injection Ha as <-.
  exists v1. split; [|now rewrite origEq_sym].
  apply (mapaccess_In _ _ _ _ Hd1 Hin1). now rewrite any_eqb_sym.
Qed.

Lemma covers_trans (l1 l2 l3 : literalSet) :
  distinctKeys l3 -> covers l1 l2 -> covers l2 l3 -> covers l1 l3.
Proof.
  intros Hd3 H12 H23 k v1 Hin.
  destruct (H12 _ _ Hin) as (v2 & Ha2 & Ho12).
  destruct (mapaccess_Some _ _ _ Ha2) as (k2 & Hin2 & Hk2).
  destruct (H23 _ _ Hin2) as (v3 & Ha3 & Ho23).
  destruct (mapaccess_Some _ _ _ Ha3) as (k3 & Hin3 & Hk3).
  exists v3. split.
  - apply (mapaccess_In _ _ _ _ Hd3 Hin3). now apply any_eqb_trans with k2.
  - unfold origEq in *.
    destruct (orig v1), (orig v2), (orig v3); simpl in *; try discriminate; auto.
    now apply sameKindAndPayload_trans with l0.
Qed.

(** A lookup after an assignment: the assigned value under a key [==] to
    the assigned one, the old answer under any other. *)
Lemma mapaccess_mapassign_any (k k' : any) (v : entry) (l : literalSet) :
  mapaccess k (mapassign k' v l) =
  if any_eqb k' k then Some v else mapaccess k l.
Proof.
  induction l as [|[k0 v0] l IH]; simpl.
  - reflexivity.
  - destruct (any_eqb k0 k') eqn:E0; simpl.
    + destruct (any_eqb k' k) eqn:E; [reflexivity|].
      destruct (any_eqb k0 k) eqn:E1; [|reflexivity].
      exfalso. rewrite any_eqb_sym in E0.
      assert (H : any_eqb k' k = true)
        by (apply any_eqb_trans with k0; assumption).
      congruence.
    + destruct (any_eqb k0 k) eqn:E1; [|exact IH].
      destruct (any_eqb k' k) eqn:E; [|reflexivity].
      exfalso. rewrite (any_eqb_euclid _ _ _ E1 E) in E0. discriminate.
Qed.

(** Nothing is [==] to a NaN key. *)
Lemma any_eqb_NaN (k : any) :
  any_eqb k (KLit (Float32Literal S754_nan)) = false
  /\ any_eqb k (KLit (Float64Literal S754_nan)) = false.
Proof.
  destruct k as [h|x]; simpl; auto.
  destruct x; simpl; auto; destruct v; auto.
Qed.

Lemma mapaccess_NaN (l : literalSet) :
  mapaccess (KLit (Float32Literal S754_nan)) l = None
  /\ mapaccess (KLit (Float64Literal S754_nan)) l = None.
Proof.
  induction l as [|[k v] l [IH1 IH2]]; simpl; auto.
  destruct (any_eqb_NaN k) as [-> ->]. auto.
Qed.

Lemma distinctKeys_nth (l : literalSet) :
  distinctKeys l ->
  forall i j kv1 kv2, (i < j)%nat ->
    nth_error l i = Some kv1 -> nth_error l j = Some kv2 ->
    any_eqb (fst kv2) (fst kv1) = false.
Proof.
  induction 1 as [|k v l Hk Hd IH]; intros i j kv1 kv2 Hij H1 H2.
  - destruct i; discriminate.
  - destruct j as [|j]; [lia|]. simpl in H2. destruct i as [|i]; simpl in H1.
    + injection H1 as <-. apply Hk. eapply nth_error_In; eauto.
    + apply (IH i j); auto. lia.
Qed.

Section WithHash.

Variable maphash_Bytes : bytes -> Z.

Notation addliteral := (addliteral maphash_Bytes).
Notation newLiteralSet := (newLiteralSet maphash_Bytes).
Notation Add := (Add maphash_Bytes).
Notation Contains := (Contains maphash_Bytes).
Notation reachable := (reachable maphash_Bytes).
Notation entryShape := (entryShape maphash_Bytes).
Notation keyOf := (keyOf maphash_Bytes).
Notation wellFormed := (wellFormed maphash_Bytes).

Lemma origShape_Add (lits : list Literal) (l : literalSet) :
  Forall origShape l -> Forall origShape (Add l lits).
Proof.
  revert l; induction lits as [|v lits IH]; intros l Hl; simpl; auto.
  apply IH. rewrite addliteral_mapassign. apply Forall_forall.
  intros kv Hin. destruct (In_mapassign _ _ _ _ Hin) as [->|Hin'].
  - unfold origShape, LiteralSets.keyOf, entryOf. simpl.
    destruct (byteContent v); simpl; auto.
  - now apply (proj1 (Forall_forall _ _) Hl).
Qed.

Lemma reachable_origShape (l : literalSet) :
  reachable l -> Forall origShape l.
Proof.
  induction 1.
  - apply (origShape_Add vals []). constructor.
  - now apply origShape_Add.
Qed.

(** The key of the entry a member comes from. *)
Lemma entry_key (k : any) (v : entry) (m : Literal) :
  entryShape (k, v) ->
  match k with KLit x => Some x | KHash _ => orig v end = Some m ->
  k = keyOf m.
Proof.
  unfold LiteralSets.entryShape, LiteralSets.keyOf. simpl.
  destruct k as [h|x].
  - intros (m' & b & Ho & Hb & ->) He. rewrite Ho in He.
    injection He as ->. now rewrite Hb.
  - intros Hb [= ->]. now rewrite Hb.
Qed.

Lemma keyOf_Equals (a b : Literal) :
  Equals a (Some b) = true -> any_eqb (keyOf a) (keyOf b) = true.
Proof.
  simpl. intros He.
  pose proof (sameKindAndPayload_byteContent _ _ He) as Hbc.
  unfold LiteralSets.keyOf. rewrite <- Hbc.
  destruct (byteContent a) eqn:Hb; simpl.
  - apply Z.eqb_refl.
  - now apply sameKindAndPayload_any_eqb.
Qed.

Lemma Len_addliteral (l : literalSet) (v : Literal) :
  Len l <= Len (addliteral l v) <= Len l + 1.
Proof.
  unfold Len. rewrite addliteral_mapassign, mapassign_length.
  destruct (mapaccess _ l); lia.
Qed.

(** X1.  [Add] never makes the set smaller, and grows it by at most one entry
    for each literal passed. *)
Theorem Len_Add_bounds (l : literalSet) (lits : list Literal) :
  Len l <= Len (Add l lits) <= Len l + Z.of_nat (List.length lits).
Proof.
  revert l; induction lits as [|v lits IH]; intros l; simpl.
  - lia.
  - pose proof (Len_addliteral l v). specialize (IH (addliteral l v)). lia.
Qed.

(** X2.  The literal passed last to [Add] is contained afterwards, whatever the
    set held before, as soon as it is [Equals]-equal to itself. *)
Theorem Contains_after_Add (l : literalSet) (lits : list Literal) (x : Literal) :
  Equals x (Some x) = true ->
  Contains (Add l (lits ++ [x])) x = true.
Proof.
  intros He. rewrite Add_app, Add_one, Contains_keyOf, mapaccess_mapassign_any.
  rewrite (keyOf_Equals _ _ He).
  unfold entryOf. destruct (byteContent x); auto.
Qed.

(** X4.  A NaN float is contained in no set at all, and each [Add] of one
    makes the set one entry longer. *)
Theorem NaN_never_found (l : literalSet) :
  Contains l (Float32Literal S754_nan) = false
  /\ Contains l (Float64Literal S754_nan) = false
  /\ Len (Add l [Float32Literal S754_nan]) = Len l + 1
  /\ Len (Add l [Float64Literal S754_nan]) = Len l + 1.
Proof.
  destruct (mapaccess_NaN l) as [H32 H64].
  unfold LiteralSets.Contains, Len. rewrite !Add_one, !mapassign_length.
  unfold LiteralSets.keyOf. simpl. rewrite H32, H64.
  repeat split; lia.
Qed.

(** X5.  No two elements of [Members()] are [Equals]-equal. *)
Theorem Members_pairwise_unequal (l : literalSet) (i j : nat) (a b : Literal) :
  reachable l -> i <> j ->
  nth_error (Members l) i = Some (Some a) ->
  nth_error (Members l) j = Some (Some b) ->
  Equals a (Some b) = false.
Proof.
  intros Hr Hij Ha Hb. destruct (reachable_wellFormed _ _ Hr) as [Hs Hd].
  unfold Members in Ha, Hb. rewrite nth_error_map in Ha, Hb.
  destruct (nth_error l i) as [[k1 v1]|] eqn:E1; [|discriminate].
  destruct (nth_error l j) as [[k2 v2]|] eqn:E2; [|discriminate].
  simpl in Ha, Hb. injection Ha as Ha. injection Hb as Hb.
  pose proof (proj1 (Forall_forall _ _) Hs _ (nth_error_In _ _ E1)) as S1.
  pose proof (proj1 (Forall_forall _ _) Hs _ (nth_error_In _ _ E2)) as S2.
  pose proof (entry_key _ _ _ S1 Ha) as K1.
  pose proof (entry_key _ _ _ S2 Hb) as K2.
  destruct (Equals a (Some b)) eqn:E; [|reflexivity].
  apply keyOf_Equals in E. rewrite <- K1, <- K2 in E.
  destruct (Nat.lt_total i j) as [Hlt|[->|Hlt]]; [| contradiction |].
  - pose proof (distinctKeys_nth _ Hd _ _ _ _ Hlt E1 E2) as H. simpl in H.
    rewrite any_eqb_sym in H. congruence.
  - pose proof (distinctKeys_nth _ Hd _ _ _ _ Hlt E2 E1) as H. simpl in H.
    congruence.
Qed.

(** ** Equals *)

Lemma literalSet_Equals_true (l1 l2 : literalSet) :
  literalSet_Equals l1 (IsLiteralSet l2) = true <->
  List.length l1 = List.length l2 /\ covers l1 l2.
Proof. apply maps_EqualFunc_true. Qed.

(** What [covers] gives for [Contains]. *)
Lemma covers_Contains (l1 l2 : literalSet) (lit : Literal) :
  distinctKeys l2 -> covers l1 l2 ->
  Contains l1 lit = true -> Contains l2 lit = true.
Proof.
  intros Hd2 Hc. rewrite !Contains_keyOf.
  destruct (mapaccess (keyOf lit) l1) as [v1|] eqn:Ha1; [|discriminate].
  destruct (mapaccess_Some _ _ _ Ha1) as (k1 & Hin1 & Hk1).
  destruct (Hc _ _ Hin1) as (v2 & Ha2 & Ho).
  destruct (mapaccess_Some _ _ _ Ha2) as (k2 & Hin2 & Hk2).
  rewrite (mapaccess_In _ _ _ _ Hd2 Hin2 (any_eqb_trans _ _ _ Hk2 Hk1)).
  destruct (byteContent lit); [|reflexivity].
  unfold origEq in Ho.
  destruct (orig v1) as [m1|]; [|discriminate].
  destruct (orig v2) as [m2|]; [|discriminate].
  simpl in *. intros H. now apply sameKindAndPayload_trans with m1.
Qed.

(** X7.  Two sets that [Equals] accepts contain the same literals. *)
Theorem Equals_same_Contains (l1 l2 : literalSet) (lit : Literal) :
  reachable l1 -> reachable l2 ->
  literalSet_Equals l1 (IsLiteralSet l2) = true ->
  Contains l1 lit = Contains l2 lit.
Proof.
  intros H1 H2 He.
  destruct (reachable_wellFormed _ _ H1) as [_ Hd1].
  destruct (reachable_wellFormed _ _ H2) as [_ Hd2].
  apply literalSet_Equals_true in He. destruct He as [Hlen Hc].
  pose proof (covers_sym _ _ Hd1 Hd2 Hlen Hc) as Hc'.
  apply eq_true_iff_eq. split; now apply covers_Contains.
Qed.

(** X8.  [Equals] does not depend on which of the two sets is the receiver. *)
Theorem Equals_symmetric (l1 l2 : literalSet) :
  reachable l1 -> reachable l2 ->
  literalSet_Equals l1 (IsLiteralSet l2)
  = literalSet_Equals l2 (IsLiteralSet l1).
Proof.
  intros H1 H2.
  destruct (reachable_wellFormed _ _ H1) as [_ Hd1].
  destruct (reachable_wellFormed _ _ H2) as [_ Hd2].
  apply eq_true_iff_eq. rewrite !literalSet_Equals_true.
  split; intros [Hlen Hc]; (split; [now symmetry | now apply covers_sym]).
Qed.

(** X9.  [Equals] is transitive. *)
Theorem Equals_transitive (l1 l2 l3 : literalSet) :
  reachable l3 ->
  literalSet_Equals l1 (IsLiteralSet l2) = true ->
  literalSet_Equals l2 (IsLiteralSet l3) = true ->
  literalSet_Equals l1 (IsLiteralSet l3) = true.
Proof.
  intros H3. destruct (reachable_wellFormed _ _ H3) as [_ Hd3].
  rewrite !literalSet_Equals_true. intros [L12 C12] [L23 C23].
  split; [congruence | now apply covers_trans with l2].
Qed.

(** X10.  A set is [Equals] to itself exactly when it holds no NaN float. *)
Theorem Equals_reflexive_iff_no_NaN (l : literalSet) :
  reachable l ->
  literalSet_Equals l (IsLiteralSet l) = true <->
  ~ In (Some (Float32Literal S754_nan)) (Members l)
  /\ ~ In (Some (Float64Literal S754_nan)) (Members l).
Proof.
  intros Hr. destruct (reachable_wellFormed _ _ Hr) as [Hs Hd].
  pose proof (reachable_origShape _ Hr) as Ho.
  rewrite literalSet_Equals_true. split.
  - intros [_ Hc].
    assert (Hno : forall x, keyOf x = KLit x ->
              mapaccess (KLit x) l = None -> ~ In (Some x) (Members l)).
    { intros x Hx Hnone Hin.
      destruct (member_entry _ _ _ (conj Hs Hd) Hin) as (v & Hin' & _).
      rewrite Hx in Hin'. destruct (Hc _ _ Hin') as (v2 & Ha & _).
      congruence. }
    destruct (mapaccess_NaN l). split; apply Hno; auto.
  - intros [H32 H64]. split; [reflexivity|]. intros k v Hin.
    pose proof (proj1 (Forall_forall _ _) Hs _ Hin) as S.
    pose proof (proj1 (Forall_forall _ _) Ho _ Hin) as O.
    unfold LiteralSets.entryShape in S. unfold origShape in O.
    simpl in S, O.
    assert (Hk : any_eqb k k = true).
    { destruct (any_eqb k k) eqn:E; [reflexivity|]. exfalso.
      destruct k as [h|x]; [simpl in E; rewrite Z.eqb_refl in E; discriminate|].
      destruct (any_eqb_irrefl _ E S) as [[= ->]|[= ->]].
      - apply H32. apply In_Members. exists (KLit (Float32Literal S754_nan)), v.
        auto.
      - apply H64. apply In_Members. exists (KLit (Float64Literal S754_nan)), v.
        auto. }
    exists v. split; [exact (mapaccess_In _ _ _ _ Hd Hin Hk)|].
    unfold origEq. destruct k as [h|x].
    + destruct S as (m & b & -> & Hb & _). simpl.
      destruct m; try discriminate; simpl; apply bytes_eqb_refl.
    + now rewrite O.
Qed.

(** ** Insertion order *)

Lemma entries_Add (lits : list Literal) (l : literalSet) (kv : any * entry) :
  In kv (Add l lits) ->
  In kv l \/ exists x, In x lits /\ kv = (keyOf x, entryOf x).
Proof.
  revert l; induction lits as [|v lits IH]; intros l; simpl; auto.
  intros H. destruct (IH _ H) as [Hin|(x & Hx & ->)].
  - rewrite addliteral_mapassign in Hin.
    destruct (In_mapassign _ _ _ _ Hin) as [->|Hin']; eauto.
  - eauto.
Qed.

(** A key some added literal is stored under is found afterwards, with the
    entry of one of the added literals stored under it. *)
Lemma lookup_Add (lits : list Literal) (l : literalSet) (k : any) (x : Literal) :
  In x lits -> any_eqb (keyOf x) k = true ->
  exists x', In x' lits /\ any_eqb (keyOf x') k = true
             /\ mapaccess k (Add l lits) = Some (entryOf x').
Proof.
  revert l x; induction lits as [|v lits IH] using rev_ind; intros l x Hin Hk.
  - destruct Hin.
  - rewrite Add_app, Add_one, mapaccess_mapassign_any.
    destruct (any_eqb (keyOf v) k) eqn:E.
    + exists v. split; [apply in_app_iff; simpl; auto | auto].
    + apply in_app_iff in Hin. destruct Hin as [Hin|[<-|[]]]; [|congruence].
      destruct (IH l x Hin Hk) as (x' & Hin' & Hk' & Ha).
      exists x'. split; [apply in_app_iff; auto | auto].
Qed.

(** When every key of [l1] is [==] to a key of [l2], and the keys of [l1]
    are distinct, [l1] is not the longer one. *)
Lemma keys_into_length (l1 : literalSet) :
  forall l2 : literalSet, distinctKeys l1 ->
  (forall kv, In kv l1 ->
     exists kv2, In kv2 l2 /\ any_eqb (fst kv2) (fst kv) = true) ->
  (List.length l1 <= List.length l2)%nat.
Proof.
  induction l1 as [|[k v] l1 IH]; intros l2 Hd1 Hall; simpl; [lia|].
  destruct (Hall (k, v) (or_introl eq_refl)) as (kv0 & Hin0 & Hk0).
  simpl in Hk0. destruct (in_split _ _ Hin0) as (A & B & ->).
  inversion Hd1 as [|? ? ? Hk Hd1']; subst.
  assert (Hall' : forall kv, In kv l1 ->
            exists kv2, In kv2 (A ++ B) /\ any_eqb (fst kv2) (fst kv) = true).
  { intros kv Hin. destruct (Hall kv (or_intror Hin)) as (kv' & Hin' & Hk').
    exists kv'. split; [|assumption].
    apply in_app_iff in Hin'. apply in_app_iff.
    destruct Hin' as [?|[<-|?]]; auto.
    exfalso. specialize (Hk _ Hin).
    rewrite any_eqb_sym in Hk'. rewrite any_eqb_sym in Hk0.
    rewrite (any_eqb_euclid _ _ _ Hk' Hk0) in Hk. discriminate. }
  specialize (IH _ Hd1' Hall'). rewrite length_app in *. simpl. lia.
Qed.

Lemma covers_keys (l1 l2 : literalSet) :
  covers l1 l2 ->
  forall kv, In kv l1 ->
    exists kv2, In kv2 l2 /\ any_eqb (fst kv2) (fst kv) = true.
Proof.
  intros Hc [k v1] Hin. destruct (Hc _ _ Hin) as (v2 & Ha & _).
  destruct (mapaccess_Some _ _ _ Ha) as (k' & Hin' & Hk').
  exists (k', v2). auto.
Qed.

(** The set made from a list is covered by the set made from any list
    with the same literals, when no two different literals of the list are
    stored under one key. *)
Lemma covers_newLiteralSet (xs ys : list Literal) :
  (forall x, In x xs -> In x ys) ->
  (forall x, In x xs -> Equals x (Some x) = true) ->
  (forall x y, In x ys -> In y xs ->
     any_eqb (keyOf x) (keyOf y) = true -> Equals x (Some y) = true) ->
  covers (newLiteralSet xs) (newLiteralSet ys).
Proof.
  intros Hsub Hself Hkey k v1 Hin.
  destruct (entries_Add xs [] _ Hin) as [[]|(x & Hx & [= -> ->])].
  destruct (lookup_Add ys [] (keyOf x) x (Hsub _ Hx)
              (keyOf_Equals _ _ (Hself _ Hx)))
    as (x' & Hx' & Hk' & Ha).
  exists (entryOf x'). split; [exact Ha|].
  pose proof (Hkey _ _ Hx' Hx Hk') as He. simpl in He.
  pose proof (sameKindAndPayload_byteContent _ _ He) as Hbc.
  unfold origEq, entryOf. rewrite Hbc.
  destruct (byteContent x); simpl; auto.
  now rewrite sameKindAndPayload_sym.
Qed.

(** X11.  Two sets made from the same literals in different orders are
    [Equals], provided no literal is a NaN float and no two different
    literals of the list are stored under one key (a Binary and a Fixed
    literal of the same bytes, or two byte strings with one hash). *)
Theorem Equals_any_insertion_order (xs ys : list Literal) :
  Permutation xs ys ->
  (forall x, In x xs -> Equals x (Some x) = true) ->
  (forall x y, In x xs -> In y xs ->
     any_eqb (keyOf x) (keyOf y) = true -> Equals x (Some y) = true) ->
  literalSet_Equals (newLiteralSet xs) (IsLiteralSet (newLiteralSet ys)) = true.
Proof.
  intros Hp Hself Hkey.
  assert (Hxy : forall x, In x xs -> In x ys)
    by (intros x; apply Permutation_in; assumption).
  assert (Hyx : forall x, In x ys -> In x xs)
    by (intros x; apply Permutation_in; now symmetry).
  assert (C1 : covers (newLiteralSet xs) (newLiteralSet ys))
    by (apply covers_newLiteralSet; auto).
  assert (C2 : covers (newLiteralSet ys) (newLiteralSet xs))
    by (apply covers_newLiteralSet; auto).
  destruct (reachable_wellFormed _ _ (reach_new maphash_Bytes xs)) as [_ D1].
  destruct (reachable_wellFormed _ _ (reach_new maphash_Bytes ys)) as [_ D2].
  apply literalSet_Equals_true. split; [|exact C1].
  apply Nat.le_antisymm.
  - apply keys_into_length; [exact D1 | exact (covers_keys _ _ C1)].
  - apply keys_into_length; [exact D2 | exact (covers_keys _ _ C2)].
Qed.

(** X3.  Every literal passed to [Add] is contained afterwards, unless it is a
    NaN float or another literal of the call, not [Equals]-equal to it,
    is stored under its key. *)
Theorem Contains_every_added (l : literalSet) (lits : list Literal) (x : Literal) :
  In x lits ->
  Equals x (Some x) = true ->
  (forall y, In y lits -> any_eqb (keyOf y) (keyOf x) = true ->
     Equals y (Some x) = true) ->
  Contains (Add l lits) x = true.
Proof.
  intros Hin Hself Hkey.
  destruct (lookup_Add lits l (keyOf x) x Hin (keyOf_Equals _ _ Hself))
    as (x' & Hx' & Hk' & Ha).
  rewrite Contains_keyOf, Ha.
  pose proof (Hkey _ Hx' Hk') as He. simpl in He.
  rewrite <- (sameKindAndPayload_byteContent _ _ He).
  unfold entryOf. destruct (byteContent x'); [|reflexivity].
  simpl. now rewrite sameKindAndPayload_sym.
Qed.

(** ** All *)

(** X12.  [All(fn)] is true exactly when [fn] accepts every element of
    [Members()]; on the empty set it is true. *)
Theorem All_iff_Members (l : literalSet) (fn : option Literal -> bool) :
  All l fn = true <-> forall e, In e (Members l) -> fn e = true.
Proof.
  induction l as [|[k v] l IH]; simpl.
  - split; [intros _ e [] | reflexivity].
  - destruct (fn (match k with KLit k0 => Some k0 | KHash _ => orig v end))
      eqn:E; simpl.
    + rewrite IH. split.
      * intros H e [<-|Hin]; auto.
      * intros H e Hin. apply H. now right.
    + split; [discriminate|]. intros H.
      specialize (H _ (or_introl eq_refl)). congruence.
Qed.

End WithHash.

(** ** The theorems at concrete sets *)

Lemma Contains_after_Add_witness :
  Equals (StringLiteral "b") (Some (StringLiteral "b")) = true
  /\ Contains lengthHash
       (Add lengthHash (newLiteralSet lengthHash [BinaryLiteral [x01]])
          ([StringLiteral "a"] ++ [StringLiteral "b"]))
       (StringLiteral "b") = true.
Proof.
  split; [reflexivity|].
  apply (Contains_after_Add lengthHash). reflexivity.
Defined.

Lemma Contains_every_added_witness :
  let lits := [BinaryLiteral [x01]; Int32Literal 4; BinaryLiteral [x01; x02]] in
  In (BinaryLiteral [x01]) lits
  /\ Equals (BinaryLiteral [x01]) (Some (BinaryLiteral [x01])) = true
  /\ (forall y, In y lits ->
        any_eqb (keyOf lengthHash y) (keyOf lengthHash (BinaryLiteral [x01]))
        = true ->
        Equals y (Some (BinaryLiteral [x01])) = true)
  /\ Contains lengthHash (Add lengthHash [] lits) (BinaryLiteral [x01]) = true.
Proof.
  assert (Hin : In (BinaryLiteral [x01])
                  [BinaryLiteral [x01]; Int32Literal 4;
                   BinaryLiteral [x01; x02]])
    by (simpl; auto).
  assert (Hkey : forall y,
            In y [BinaryLiteral [x01]; Int32Literal 4;
                  BinaryLiteral [x01; x02]] ->
            any_eqb (keyOf lengthHash y)
              (keyOf lengthHash (BinaryLiteral [x01])) = true ->
            Equals y (Some (BinaryLiteral [x01])) = true)
    by (intros y [<-|[<-|[<-|[]]]]; simpl; auto; discriminate).
  split; [exact Hin|]. split; [reflexivity|]. split; [exact Hkey|].
  exact (Contains_every_added lengthHash [] _ _ Hin eq_refl Hkey).
Defined.

Lemma Members_pairwise_unequal_witness :
  let l := newLiteralSet lengthHash
             [Float64Literal (S754_zero false); BinaryLiteral [x01];
              Float64Literal (S754_zero true)] in
  reachable lengthHash l /\ 0%nat <> 1%nat
  /\ nth_error (Members l) 0 = Some (Some (Float64Literal (S754_zero true)))
  /\ nth_error (Members l) 1 = Some (Some (BinaryLiteral [x01]))
  /\ Equals (Float64Literal (S754_zero true)) (Some (BinaryLiteral [x01]))
     = false.
Proof.
  split; [constructor|]. split; [discriminate|].
  split; [reflexivity|]. split; [reflexivity|].
  apply (Members_pairwise_unequal lengthHash
           (newLiteralSet lengthHash
              [Float64Literal (S754_zero false); BinaryLiteral [x01];
               Float64Literal (S754_zero true)]) 0 1);
    [constructor | discriminate | reflexivity | reflexivity].
Defined.

Lemma Add_keeps_scalar_member_witness :
  let l := newLiteralSet lengthHash [Int64Literal 5; FixedLiteral [x01]] in
  let ys := [Int32Literal 5; BinaryLiteral [x01]; Int64Literal 6] in
  wellFormed lengthHash l
  /\ In (Some (Int64Literal 5)) (Members l)
  /\ byteContent (Int64Literal 5) = None
  /\ (forall y, In y ys -> Equals y (Some (Int64Literal 5)) = false)
  /\ In (Some (Int64Literal 5)) (Members (Add lengthHash l ys)).
Proof.
  assert (Hwf : wellFormed lengthHash
                  (newLiteralSet lengthHash
                     [Int64Literal 5; FixedLiteral [x01]]))
    by (apply reachable_wellFormed; constructor).
  assert (Hys : forall y,
            In y [Int32Literal 5; BinaryLiteral [x01]; Int64Literal 6] ->
            Equals y (Some (Int64Literal 5)) = false)
    by (intros y [<-|[<-|[<-|[]]]]; reflexivity).
  split; [exact Hwf|]. split; [simpl; auto|]. split; [reflexivity|].
  split; [exact Hys|].
  apply (Add_keeps_scalar_member lengthHash); [exact Hwf | simpl; auto
                                              | reflexivity | exact Hys].
Defined.

Lemma Equals_same_Contains_witness :
  let l1 := newLiteralSet lengthHash [Int32Literal 1; BinaryLiteral [x01]] in
  let l2 := newLiteralSet lengthHash [BinaryLiteral [x01]; Int32Literal 1] in
  reachable lengthHash l1 /\ reachable lengthHash l2
  /\ literalSet_Equals l1 (IsLiteralSet l2) = true
  /\ Contains lengthHash l1 (BinaryLiteral [x01])
     = Contains lengthHash l2 (BinaryLiteral [x01]).
Proof.
  split; [constructor|]. split; [constructor|]. split; [reflexivity|].
  apply (Equals_same_Contains lengthHash); [constructor | constructor
                                           | reflexivity].
Defined.

Lemma Equals_symmetric_witness :
  let l1 := newLiteralSet lengthHash [Int32Literal 1; BinaryLiteral [x01]] in
  let l2 := newLiteralSet lengthHash [FixedLiteral [x01]; Int32Literal 1] in
  reachable lengthHash l1 /\ reachable lengthHash l2
  /\ literalSet_Equals l1 (IsLiteralSet l2)
     = literalSet_Equals l2 (IsLiteralSet l1).
Proof.
  split; [constructor|]. split; [constructor|].
  apply (Equals_symmetric lengthHash); constructor.
Defined.

Lemma Equals_transitive_witness :
  let l1 := newLiteralSet lengthHash [Int32Literal 1; Int32Literal 2] in
  let l2 := newLiteralSet lengthHash [Int32Literal 2; Int32Literal 1] in
  let l3 := newLiteralSet lengthHash
              [Int32Literal 2; Int32Literal 1; Int32Literal 2] in
  reachable lengthHash l3
  /\ literalSet_Equals l1 (IsLiteralSet l2) = true
  /\ literalSet_Equals l2 (IsLiteralSet l3) = true
  /\ literalSet_Equals l1 (IsLiteralSet l3) = true.
Proof.
  split; [constructor|]. split; [reflexivity|]. split; [reflexivity|].
  apply (Equals_transitive lengthHash) with
    (l2 := newLiteralSet lengthHash [Int32Literal 2; Int32Literal 1]);
    [constructor | reflexivity | reflexivity].
Defined.

Lemma Equals_reflexive_iff_no_NaN_witness :
  let l := newLiteralSet lengthHash
             [Float32Literal S754_nan; Int32Literal 1] in
  reachable lengthHash l
  /\ (literalSet_Equals l (IsLiteralSet l) = true <->
      ~ In (Some (Float32Literal S754_nan)) (Members l)
      /\ ~ In (Some (Float64Literal S754_nan)) (Members l)).
Proof.
  split; [constructor|].
  apply (Equals_reflexive_iff_no_NaN lengthHash). constructor.
Defined.

Lemma Equals_any_insertion_order_witness :
  let xs := [Int32Literal 1; BinaryLiteral [x01]; StringLiteral "a"] in
  let ys := [BinaryLiteral [x01]; Int32Literal 1; StringLiteral "a"] in
  Permutation xs ys
  /\ (forall x, In x xs -> Equals x (Some x) = true)
  /\ (forall x y, In x xs -> In y xs ->
        any_eqb (keyOf lengthHash x) (keyOf lengthHash y) = true ->
        Equals x (Some y) = true)
  /\ literalSet_Equals (newLiteralSet lengthHash xs)
       (IsLiteralSet (newLiteralSet lengthHash ys)) = true.
Proof.
  assert (Hp : Permutation
                 [Int32Literal 1; BinaryLiteral [x01]; StringLiteral "a"]
                 [BinaryLiteral [x01]; Int32Literal 1; StringLiteral "a"])
    by apply perm_swap.
  assert (H1 : forall x,
            In x [Int32Literal 1; BinaryLiteral [x01]; StringLiteral "a"] ->
            Equals x (Some x) = true)
    by (intros x [<-|[<-|[<-|[]]]]; reflexivity).
  assert (H2 : forall x y,
            In x [Int32Literal 1; BinaryLiteral [x01]; StringLiteral "a"] ->
            In y [Int32Literal 1; BinaryLiteral [x01]; StringLiteral "a"] ->
            any_eqb (keyOf lengthHash x) (keyOf lengthHash y) = true ->
            Equals x (Some y) = true)
    by (intros x y [<-|[<-|[<-|[]]]] [<-|[<-|[<-|[]]]]; simpl;
        auto; discriminate).
  split; [exact Hp|]. split; [exact H1|]. split; [exact H2|].
  exact (Equals_any_insertion_order lengthHash _ _ Hp H1 H2).
Defined.

End LiteralSetMore.

(* ===================================================================== *)
(** * Properties of max and Difference *)
(* ===================================================================== *)

Module UtilsFacts.
Import Utils.

(** ** max *)

Section Max.

Variable T : Type.
Variable gtb : T -> T -> bool.

Notation step := (fun out v => if gtb v out then v : T else out).

Lemma fold_max_In (rest : list T) (v0 : T) :
  fold_left step rest v0 = v0 \/ In (fold_left step rest v0) rest.
Proof.
  revert v0; induction rest as [|v rest IH]; intros v0; simpl; auto.
  destruct (IH (if gtb v v0 then v else v0)) as [H|H]; [|auto].
  rewrite H. destruct (gtb v v0); auto.
Qed.

(** X13.  [max] panics exactly on no arguments; otherwise it returns one of its
    arguments. *)
Theorem max_returns_argument (vals : list T) :
  match max gtb vals with
  | PanicsWith _ => vals = []
  | Returns r => In r vals
  end.
Proof.
  destruct vals as [|v0 rest]; simpl; [reflexivity|].
  destruct (fold_max_In rest v0) as [->|H]; auto.
Qed.

Hypothesis gtb_irrefl : forall a, gtb a a = false.
Hypothesis gtb_trans :
  forall a b c, gtb a b = true -> gtb b c = true -> gtb a c = true.

(** The loop keeps [out] not below anything it has seen. *)
Lemma fold_max_upper (rest seen : list T) (out : T) :
  (forall s, In s seen -> gtb s out = false) ->
  forall s, In s (seen ++ rest) -> gtb s (fold_left step rest out) = false.
Proof.
  revert seen out; induction rest as [|v rest IH]; intros seen out Hseen s Hin;
    simpl.
  - rewrite app_nil_r in Hin. auto.
  - apply (IH (seen ++ [v])).
    + intros s' Hs'. apply in_app_iff in Hs'.
      destruct (gtb v out) eqn:E.
      * destruct Hs' as [Hs'|[<-|[]]]; [|apply gtb_irrefl].
        destruct (gtb s' v) eqn:E'; [|reflexivity].
        rewrite <- (Hseen _ Hs'). symmetry. now apply gtb_trans with v.
      * destruct Hs' as [Hs'|[<-|[]]]; auto.
    + now rewrite <- app_assoc.
Qed.

(** X14.  For an order that is irreflexive and transitive (as [>] is on
    integers, strings and floats), no argument is greater than the value
    [max] returns. *)
Theorem max_is_upper_bound (vals : list T) (r : T) :
  max gtb vals = Returns r ->
  forall v, In v vals -> gtb v r = false.
Proof.
  destruct vals as [|v0 rest]; simpl; [discriminate|].
  intros [= <-] v Hin.
  apply (fold_max_upper rest [v0]).
  - intros s [<-|[]]. apply gtb_irrefl.
  - exact Hin.
Qed.

End Max.

Lemma max_is_upper_bound_witness :
  (forall a, Z.gtb a a = false)
  /\ (forall a b c, Z.gtb a b = true -> Z.gtb b c = true -> Z.gtb a c = true)
  /\ max Z.gtb [3; 9; 4] = Returns 9
  /\ forall v, In v [3; 9; 4] -> Z.gtb v 9 = false.
Proof.
  assert (H1 : forall a, Z.gtb a a = false) by (intros a; lia).
  assert (H2 : forall a b c,
            Z.gtb a b = true -> Z.gtb b c = true -> Z.gtb a c = true)
    by (intros a b c; lia).
  split; [exact H1|]. split; [exact H2|]. split; [reflexivity|].
  exact (max_is_upper_bound Z Z.gtb H1 H2 [3; 9; 4] 9 eq_refl).
Defined.

(** ** Difference *)

Lemma mapIndex_mapStore (m : stringBoolMap) (k k' : string) (v : bool) :
  mapIndex (mapStore m k v) k' = if String.eqb k k' then v else mapIndex m k'.
Proof.
  induction m as [|[k0 v0] m IH]; simpl.
  - reflexivity.
  - destruct (String.eqb_spec k0 k) as [->|N]; simpl.
    + destruct (String.eqb k k'); reflexivity.
    + rewrite IH. destruct (String.eqb_spec k0 k') as [->|N'];
        [|reflexivity].
      destruct (String.eqb_spec k k'); congruence.
Qed.

(** The map built from [b] reads [true] exactly on the elements of [b]. *)
Lemma mapIndex_build (b : list string) (m : stringBoolMap) (k : string) :
  mapIndex (fold_left (fun m item => mapStore m item true) b m) k
  = existsb (String.eqb k) b || mapIndex m k.
Proof.
  revert m; induction b as [|x b IH]; intros m; simpl; [reflexivity|].
  rewrite IH, mapIndex_mapStore. rewrite (String.eqb_sym k x).
  destruct (String.eqb x k), (existsb (String.eqb k) b); reflexivity.
Qed.

Lemma fold_append_filter (p : string -> bool) (a acc : list string) :
  fold_left (fun diff item => if p item then diff ++ [item] else diff) a acc
  = acc ++ filter p a.
Proof.
  revert acc; induction a as [|x a IH]; intros acc; simpl.
  - now rewrite app_nil_r.
  - rewrite IH. destruct (p x); [now rewrite <- app_assoc | reflexivity].
Qed.

(** [Difference a b] is [a] with the elements of [b] struck out. *)
Lemma Difference_filter (a b : list string) :
  Difference a b = filter (fun x => negb (existsb (String.eqb x) b)) a.
Proof.
  unfold Difference. rewrite fold_append_filter. simpl.
  apply filter_ext. intros x. rewrite mapIndex_build. simpl.
  now rewrite orb_false_r.
Qed.

Lemma existsb_eqb_In (x : string) (b : list string) :
  existsb (String.eqb x) b = true <-> In x b.
Proof.
  rewrite existsb_exists. split.
  - intros (y & Hy & E). apply String.eqb_eq in E. now subst.
  - intros H. exists x. split; [assumption | apply String.eqb_refl].
Qed.

(** X15.  An element is in [Difference a b] exactly when it is in [a] and not
    in [b]. *)
Theorem Difference_In (a b : list string) (x : string) :
  In x (Difference a b) <-> In x a /\ ~ In x b.
Proof.
  rewrite Difference_filter, filter_In, negb_true_iff.
  rewrite <- (existsb_eqb_In x b). destruct (existsb (String.eqb x) b);
    intuition congruence.
Qed.

(** X16.  [Difference] keeps the order and the repetitions of [a]: it goes
    through a concatenation part by part, keeps an element that is not in
    [b] and drops one that is. *)
Theorem Difference_keeps_order (a1 a2 b : list string) (x : string) :
  Difference (a1 ++ a2) b = Difference a1 b ++ Difference a2 b
  /\ (~ In x b -> Difference (x :: a1) b = x :: Difference a1 b)
  /\ (In x b -> Difference (x :: a1) b = Difference a1 b).
Proof.
  rewrite !Difference_filter, filter_app. split; [reflexivity|].
  simpl. rewrite <- (existsb_eqb_In x b).
  destruct (existsb (String.eqb x) b); simpl; split; intros H;
    try reflexivity; try congruence; exfalso; now apply H.
Qed.

(** X17.  When every element of [a] is in [b], and so for [Difference a a],
    nothing is left. *)
Theorem Difference_of_subset (a b : list string) :
  (forall x, In x a -> In x b) -> Difference a b = [].
Proof.
  intros H. rewrite Difference_filter.
  induction a as [|x a IH]; simpl; [reflexivity|].
  rewrite (proj2 (existsb_eqb_In x b)) by (apply H; now left). simpl.
  apply IH. intros y Hy. apply H. now right.
Qed.

(** X18.  When no element of [a] is in [b], and so for an empty [b], [a] comes
    back unchanged. *)
Theorem Difference_of_disjoint (a b : list string) :
  (forall x, In x a -> ~ In x b) -> Difference a b = a.
Proof.
  intros H. rewrite Difference_filter.
  induction a as [|x a IH]; simpl; [reflexivity|].
  destruct (existsb (String.eqb x) b) eqn:E.
  - apply existsb_eqb_In in E. exfalso. apply (H x); simpl; auto.
  - simpl. f_equal. apply IH. intros y Hy. apply H. now right.
Qed.

(** X19.  Taking the same list away a second time changes nothing. *)
Theorem Difference_idempotent (a b : list string) :
  Difference (Difference a b) b = Difference a b.
Proof.
  rewrite !Difference_filter.
  induction a as [|x a IH]; simpl; [reflexivity|].
  destruct (existsb (String.eqb x) b) eqn:E; simpl; [exact IH|].
  rewrite E. simpl. now rewrite IH.
Qed.

Lemma Difference_of_subset_witness :
  (forall x, In x ["a"; "b"; "a"]%string -> In x ["b"; "a"]%string)
  /\ Difference ["a"; "b"; "a"]%string ["b"; "a"]%string = [].
Proof.
  assert (H : forall x, In x ["a"; "b"; "a"]%string -> In x ["b"; "a"]%string)
    by (intros x [<-|[<-|[<-|[]]]]; simpl; auto).
  split; [exact H | exact (Difference_of_subset _ _ H)].
Defined.

Lemma Difference_of_disjoint_witness :
  (forall x, In x ["a"; "c"; "a"]%string -> ~ In x ["b"]%string)
  /\ Difference ["a"; "c"; "a"]%string ["b"]%string = ["a"; "c"; "a"]%string.
Proof.
  assert (H : forall x, In x ["a"; "c"; "a"]%string -> ~ In x ["b"]%string)
    by (intros x [<-|[<-|[<-|[]]]] [E|[]]; discriminate).
  split; [exact H | exact (Difference_of_disjoint _ _ H)].
Defined.

End UtilsFacts.

(* ===================================================================== *)
(** * Further properties of accessor.Get *)
(* ===================================================================== *)

Module AccessorMore.
Import Accessors Shapes.

Lemma structGet_in_range (s : structLike) (p : Z) :
  0 <= p < Size s -> exists v, structGet s p = Ret v /\ In v s.
Proof.
  unfold structGet, Size. intros [H0 H1].
  destruct (Z.ltb_spec p 0); [lia|].
  destruct (nth_error s (Z.to_nat p)) as [v|] eqn:E.
  - exists v. split; [reflexivity | eapply nth_error_In; eauto].
  - apply nth_error_None in E. lia.
Qed.

Lemma structGet_out_of_range (s : structLike) (p : Z) :
  p < 0 \/ Size s <= p -> structGet s p = Panics (IndexOutOfRange p).
Proof.
  unfold structGet, Size. intros H.
  destruct (Z.ltb_spec p 0); [reflexivity|].
  destruct (nth_error s (Z.to_nat p)) as [v|] eqn:E; [|reflexivity].
  assert (Hlt : (Z.to_nat p < List.length s)%nat)
    by (apply nth_error_Some; congruence).
  lia.
Qed.

(** X20.  A position that is not a column of the row makes [Get] panic with an
    index out of range, whatever the continuation; an accessor without
    continuation whose position is a column returns that column. *)
Theorem Get_bounds (a : accessor) (s : structLike) :
  (pos a < 0 \/ Size s <= pos a ->
   Get a s = Panics (IndexOutOfRange (pos a)))
  /\ (0 <= pos a < Size s -> inner a = None ->
      exists v, nth_error s (Z.to_nat (pos a)) = Some v /\ Get a s = Ret v).
Proof.
  split.
  - intros H. unfold Get. now rewrite structGet_out_of_range.
  - intros H Hi. destruct a as [p i]. simpl in *. subst i.
    unfold Get, structGet. simpl. destruct (Z.ltb_spec p 0); [lia|].
    destruct (nth_error s (Z.to_nat p)) as [v|] eqn:E.
    + exists v. split; [reflexivity|]. destruct v; reflexivity.
    + apply nth_error_None in E. unfold Size in H. lia.
Qed.

Lemma Get_bounds_witness :
  (2 < 0 \/ Size [VInt 1; VNil] <= 2)
  /\ Get (mkAccessor 2 (Some (mkAccessor 0 None))) [VInt 1; VNil]
     = Panics (IndexOutOfRange 2).
Proof.
  assert (H : 2 < 0 \/ Size [VInt 1; VNil] <= 2)
    by (right; unfold Size; simpl; lia).
  split; [exact H|].
  exact (proj1 (Get_bounds (mkAccessor 2 (Some (mkAccessor 0 None)))
                  [VInt 1; VNil]) H).
Defined.

(** An induction principle along the chain of an accessor. *)
Fixpoint accessor_chain_ind (P : accessor -> Prop)
    (Hleaf : forall p, P (mkAccessor p None))
    (Hstep : forall p nxt, P nxt -> P (mkAccessor p (Some nxt)))
    (a : accessor) : P a :=
  match a with
  | mkAccessor p None => Hleaf p
  | mkAccessor p (Some nxt) =>
      Hstep p nxt (accessor_chain_ind P Hleaf Hstep nxt)
  end.

Lemma hasShape_struct (cols : list value) (fields : list shape) :
  hasShape (VStruct cols) (SStruct fields) = true ->
  List.length cols = List.length fields
  /\ forall n c f, nth_error cols n = Some c -> nth_error fields n = Some f ->
       hasShape c f = true.
Proof.
  simpl. revert fields; induction cols as [|c cols IH]; intros [|f fields];
    try discriminate.
  - intros _. split; [reflexivity|]. intros [|n]; discriminate.
  - intros H. apply andb_true_iff in H. destruct H as [Hc Hrest].
    destruct (IH _ Hrest) as [Hlen Hnth]. split; [simpl; congruence|].
    intros [|n] c' f'; simpl.
    + intros [= <-] [= <-]. exact Hc.
    + apply Hnth.
Qed.

(** X21.  On a row that fits a struct shape, an accessor that is a path of that
    shape never panics: [Get] returns a value. *)
Theorem Get_on_fitting_row (a : accessor) :
  forall (row : structLike) (fields : list shape),
  hasShape (VStruct row) (SStruct fields) = true ->
  validPath a (SStruct fields) = true ->
  exists v, Get a row = Ret v.
Proof.
  induction a as [p|p nxt IH] using accessor_chain_ind;
    intros row fields Hrow Hpath; simpl in Hpath;
    destruct (Z.ltb_spec p 0) as [|Hp]; try discriminate;
    destruct (nth_error fields (Z.to_nat p)) as [ft|] eqn:Ef;
    try discriminate;
    destruct (hasShape_struct _ _ Hrow) as [Hlen Hnth];
    assert (Hlt : (Z.to_nat p < List.length row)%nat)
      by (rewrite Hlen; apply nth_error_Some; congruence);
    destruct (nth_error row (Z.to_nat p)) as [c|] eqn:Ec;
    try (apply nth_error_None in Ec; lia);
    pose proof (Hnth _ _ _ Ec Ef) as Hc.
  - exists c. unfold Get, structGet. simpl.
    destruct (Z.ltb_spec p 0); [lia|]. rewrite Ec. destruct c; reflexivity.
  - unfold Get, structGet. simpl.
    destruct (Z.ltb_spec p 0); [lia|]. rewrite Ec.
    destruct c as [|b|i|s|cols].
    + exists VNil. reflexivity.
    + destruct ft; [|discriminate]. destruct nxt; discriminate.
    + destruct ft; [|discriminate]. destruct nxt; discriminate.
    + destruct ft; [|discriminate]. destruct nxt; discriminate.
    + destruct ft as [|fs]; [discriminate|].
      change (descend (VStruct cols) (mkAccessor p (Some nxt)))
        with (Get nxt cols).
      exact (IH cols fs Hc Hpath).
Qed.

Lemma Get_on_fitting_row_witness :
  let row := [VInt 1; VStruct [VString "x"; VNil]; VNil] in
  let fields := [SLeaf; SStruct [SLeaf; SStruct [SLeaf]]; SStruct [SLeaf]] in
  let a := mkAccessor 1 (Some (mkAccessor 1 (Some (mkAccessor 0 None)))) in
  hasShape (VStruct row) (SStruct fields) = true
  /\ validPath a (SStruct fields) = true
  /\ exists v, Get a row = Ret v.
Proof.
  split; [reflexivity|]. split; [reflexivity|].
  apply (Get_on_fitting_row
           (mkAccessor 1 (Some (mkAccessor 1 (Some (mkAccessor 0 None)))))
           [VInt 1; VStruct [VString "x"; VNil]; VNil]
           [SLeaf; SStruct [SLeaf; SStruct [SLeaf]]; SStruct [SLeaf]]);
    reflexivity.
Defined.

End AccessorMore.

(* ===================================================================== *)
(** * Further properties of the schema translation *)
(* ===================================================================== *)

Module AvroSchemaMore.
Import AvroSchemas.
Local Open Scope string_scope.

(** What a translated field keeps of its definition. *)
Lemma nestedFieldToAvroField_Ok (f : NestedField) (fld : Field) :
  nestedFieldToAvroField f = Ok fld ->
  supported (Type_ f) = true /\ validateName (Name f) = None
  /\ fieldName fld = Name f /\ fieldDoc fld = Doc f
  /\ fieldProps fld = [("field-id", PInt (ID f))]
  /\ isUnion (fieldType fld) = negb (Required f).
Proof.
  destruct f as [id name t req doc].
  unfold nestedFieldToAvroField, nestedFieldToAvroSchema, NewField. simpl.
  destruct t; simpl; try discriminate; destruct req; simpl;
    destruct (validateName name); try discriminate;
    intros [= <-]; repeat split.
Qed.

Lemma nestedFieldToAvroField_total (f : NestedField) :
  supported (Type_ f) = true -> validateName (Name f) = None ->
  exists fld, nestedFieldToAvroField f = Ok fld.
Proof.
  destruct f as [id name t req doc].
  unfold nestedFieldToAvroField, nestedFieldToAvroSchema, NewField. simpl.
  intros Hs ->. destruct t; try discriminate Hs; destruct req; simpl; eauto.
Qed.

(** The loop appends one translated field for each field, in order. *)
Lemma translateFields_Ok (st : list NestedField) :
  forall aFields fields,
  translateFields st aFields = Ok fields ->
  exists news, fields = (aFields ++ news)%list
    /\ Forall2 (fun f fld => nestedFieldToAvroField f = Ok fld) st news.
Proof.
  induction st as [|f st IH]; intros aFields fields; simpl.
  - intros [= <-]. exists []. now rewrite app_nil_r.
  - destruct (nestedFieldToAvroField f) as [fld|e] eqn:E; [|discriminate].
    intros H. destruct (IH _ _ H) as (news & -> & HF).
    exists (fld :: news). rewrite <- app_assoc. simpl. auto.
Qed.

Lemma translateFields_total (st : list NestedField) :
  forall aFields,
  (forall f, In f st -> exists fld, nestedFieldToAvroField f = Ok fld) ->
  exists fields, translateFields st aFields = Ok fields.
Proof.
  induction st as [|f st IH]; intros aFields H; simpl; [eauto|].
  destruct (H f (or_introl eq_refl)) as [fld ->].
  apply IH. intros g Hg. apply H. now right.
Qed.

(** X22.  The translation of a field list succeeds exactly when every field has
    a supported type and a name the schema builder accepts; an empty list
    translates. *)
Theorem translation_succeeds_iff (st : list NestedField) :
  (exists sch, structTypeToAvroPartitionSchema st = Ok sch) <->
  (forall f, In f st ->
     supported (Type_ f) = true /\ validateName (Name f) = None).
Proof.
  unfold structTypeToAvroPartitionSchema. split.
  - intros [sch H].
    destruct (translateFields st []) as [fields|e] eqn:E; [|discriminate].
    destruct (translateFields_Ok _ _ _ E) as (news & _ & HF).
    intros f Hin. clear E H.
    induction HF as [|g fld st' news' Hg HF IH]; [destruct Hin|].
    destruct Hin as [->|Hin]; [|auto].
    destruct (nestedFieldToAvroField_Ok _ _ Hg) as (? & ? & _). auto.
  - intros H.
    assert (Hall : forall f, In f st ->
              exists fld, nestedFieldToAvroField f = Ok fld).
    { intros f Hin. destruct (H f Hin).
      now apply nestedFieldToAvroField_total. }
    destruct (translateFields_total st [] Hall) as [fields ->].
    eexists. reflexivity.
Qed.

(** X23.  A translated schema is the record named r102 with one field for each
    input field, in the input's order, each keeping the name, the doc and
    the field-id of its definition, and being a union exactly when the
    definition is not required. *)
Theorem translation_preserves_fields (st : list NestedField) (sch : Schema) :
  structTypeToAvroPartitionSchema st = Ok sch ->
  exists fields,
    sch = RecordSchema "r102" "" fields
    /\ List.length fields = List.length st
    /\ map fieldName fields = map Name st
    /\ map fieldDoc fields = map Doc st
    /\ map fieldProps fields = map (fun f => [("field-id", PInt (ID f))]) st
    /\ map (fun fld => isUnion (fieldType fld)) fields
       = map (fun f => negb (Required f)) st.
Proof.
  unfold structTypeToAvroPartitionSchema.
  destruct (translateFields st []) as [fields|e] eqn:E; [|discriminate].
  intros [= <-]. exists fields. split; [reflexivity|].
  destruct (translateFields_Ok _ _ _ E) as (news & -> & HF). simpl.
  clear E. induction HF as [|f fld st' news' Hf HF IH]; simpl.
  - repeat split.
  - destruct (nestedFieldToAvroField_Ok _ _ Hf)
      as (_ & _ & Hn & Hd & Hp & Hu).
    destruct IH as (L & N & D & P & U).
    rewrite L, N, D, P, U, Hn, Hd, Hp, Hu. repeat split.
Qed.

Lemma translation_preserves_fields_witness :
  let st := [mkNestedField 7 "day" DateType true "partition day";
             mkNestedField 3 "uid" UUIDType false ""] in
  structTypeToAvroPartitionSchema st
  = Ok (RecordSchema "r102" ""
          [mkField "day" (PrimitiveSchema Int (Some Date) []) "partition day"
             [("field-id", PInt 7)];
           mkField "uid"
             (UnionSchema [NullSchema;
                           FixedSchema "uuid_fixed" "" 16 (Some UUID)])
             "" [("field-id", PInt 3)]])
  /\ exists fields,
       RecordSchema "r102" ""
         [mkField "day" (PrimitiveSchema Int (Some Date) []) "partition day"
            [("field-id", PInt 7)];
          mkField "uid"
            (UnionSchema [NullSchema;
                          FixedSchema "uuid_fixed" "" 16 (Some UUID)])
            "" [("field-id", PInt 3)]]
       = RecordSchema "r102" "" fields
       /\ List.length fields = List.length st
       /\ map fieldName fields = map Name st
       /\ map fieldDoc fields = map Doc st
       /\ map fieldProps fields
          = map (fun f => [("field-id", PInt (ID f))]) st
       /\ map (fun fld => isUnion (fieldType fld)) fields
          = map (fun f => negb (Required f)) st.
Proof.
  split; [reflexivity|].
  apply (translation_preserves_fields
           [mkNestedField 7 "day" DateType true "partition day";
            mkNestedField 3 "uid" UUIDType false ""]).
  reflexivity.
Defined.

End AvroSchemaMore.

(* ===================================================================== *)
(** * Further properties of avroEncode *)
(* ===================================================================== *)

Module AvroEncodeMore.
Import AvroEncode AvroEncodeFacts.

Section Encoder.

Variables (Schema T Encoder World Error : Type).
Variable NewEncoderWithSchema :
  Schema -> encoderConfig -> World -> (Error + Encoder) * World.
Variable Encode : Encoder -> T -> World -> option Error * World.
Variable Close : Encoder -> World -> option Error * World.

(** X24.  The calls of one run, in order: the constructor once, with the
    format-version metadata and the deflate codec; then [Encode] on the
    records of a prefix of [vals], in the order of [vals]; then, only if
    that prefix is all of [vals], [Close], once.  And a run that returns
    no error has closed the encoder. *)
Theorem avroEncode_call_order (sch : Schema) (version : Z) (vals : list T)
    (w : World) :
  exists (n : nat) (closed : bool),
    (n <= List.length vals)%nat
    /\ snd (snd (avroEncodeRec NewEncoderWithSchema Encode Close
                   sch version vals w))
       = CallNew (configOf version)
           :: map CallEncode (firstn n vals)
              ++ (if closed then [CallClose] else [])
    /\ (closed = true -> n = List.length vals)
    /\ (fst (avroEncodeRec NewEncoderWithSchema Encode Close
               sch version vals w) = None -> closed = true).
Proof.
  unfold avroEncodeRec, avroEncode. fold (configOf version).
  unfold recNew. simpl.
  destruct (NewEncoderWithSchema sch (configOf version) w) as [[err|enc] w1].
  - exists 0%nat, false. simpl. repeat split; [lia | discriminate..].
  - destruct (encodes_or_fails _ _ _ _ Encode enc vals w1)
      as [[w2 H]|(pre & file & post & w2 & err & w3 & -> & H & Hf)].
    + rewrite (encodeLoop_encodes _ _ _ _ Encode enc vals w1 w2 _ H).
      unfold recClose. simpl. destruct (Close enc w2) as [r w'].
      exists (List.length vals), true. rewrite firstn_all. simpl.
      repeat split; lia.
    + rewrite (encodeLoop_fails _ _ _ _ Encode enc pre file post
                 w1 w2 w3 err _ H Hf).
      exists (List.length pre + 1)%nat, false. cbn [fst snd].
      rewrite firstn_app_2. cbn [firstn]. rewrite app_nil_r, map_app.
      repeat split; try discriminate.
      rewrite length_app. simpl. lia.
Qed.

End Encoder.

End AvroEncodeMore.

(* ===================================================================== *)
(** * Members as the literals added and not displaced *)
(* ===================================================================== *)

Module LiteralSetMembers.
Import Literals LiteralSets LiteralSetFacts LiteralSetMore.

(** What an assignment leaves of a map with distinct keys: the assigned
    entry, and the entries whose key is not [==] to the assigned one. *)
Lemma In_mapassign_other (k : any) (v : entry) (l : literalSet)
    (kv : any * entry) :
  distinctKeys l ->
  In kv (mapassign k v l) ->
  kv = (k, v) \/ (In kv l /\ any_eqb (fst kv) k = false).
Proof.
  intros Hd; induction Hd as [|k0 v0 l Hk0 Hd IH]; simpl.
  - intros [<-|[]]. auto.
  - destruct (any_eqb k0 k) eqn:E; simpl.
    + intros [<-|Hin]; [auto|]. right. split; [auto|].
      destruct (any_eqb (fst kv) k) eqn:E'; [|reflexivity].
      rewrite <- (Hk0 _ Hin). symmetry. now apply any_eqb_euclid with k.
    + intros [<-|Hin]; [right; auto|].
      destruct (IH Hin) as [->|[Hin' Hk]]; auto.
Qed.

Section WithHash.

Variable maphash_Bytes : bytes -> Z.

Notation addliteral := (addliteral maphash_Bytes).
Notation newLiteralSet := (newLiteralSet maphash_Bytes).
Notation Add := (Add maphash_Bytes).
Notation Contains := (Contains maphash_Bytes).
Notation keyOf := (keyOf maphash_Bytes).
Notation wellFormed := (wellFormed maphash_Bytes).
Notation held := (held maphash_Bytes).
Notation builtFrom := (builtFrom maphash_Bytes).

Lemma held_cons (x : Literal) (hist : list Literal) (m : Literal) :
  held (x :: hist) m <->
  (m = x /\ forall y, In y hist -> any_eqb (keyOf y) (keyOf m) = false)
  \/ held hist m.
Proof.
  split.
  - intros H. inversion H; subst; auto.
  - intros [[-> H]|H]; [now constructor | now constructor].
Qed.

Lemma held_In (hist : list Literal) (m : Literal) : held hist m -> In m hist.
Proof. induction 1; simpl; auto. Qed.

(** The members after one [addliteral]: the literal added, and the old
    members it does not displace. *)
Lemma Members_addliteral (l : literalSet) (x m : Literal) :
  wellFormed l ->
  In (Some m) (Members (addliteral l x)) <->
  m = x \/ (In (Some m) (Members l)
            /\ any_eqb (keyOf x) (keyOf m) = false).
Proof.
  intros Hwf. split.
  - intros Hin. apply In_Members in Hin. destruct Hin as (k & v & Hin & He).
    rewrite addliteral_mapassign in Hin.
    destruct (In_mapassign_other _ _ _ _ (proj2 Hwf) Hin)
      as [[= -> ->]|[Hin' Hk]].
    + left. unfold LiteralSets.keyOf, entryOf in He.
      destruct (byteContent x); simpl in He; congruence.
    + right. simpl in Hk.
      pose proof (proj1 (Forall_forall _ _) (proj1 Hwf) _ Hin') as Hs.
      symmetry in He. pose proof (entry_key _ _ _ _ Hs He) as ->.
      split; [|now rewrite any_eqb_sym].
      apply In_Members. exists (keyOf m), v. auto.
  - intros [->|[Hin Hk]].
    + apply (Add_one_member maphash_Bytes l x).
    + destruct (member_entry _ _ _ Hwf Hin) as (v & Hin' & Ho).
      apply In_Members. exists (keyOf m), v. split.
      * rewrite addliteral_mapassign. apply mapassign_keeps; auto.
        now rewrite any_eqb_sym.
      * unfold LiteralSets.keyOf in *. destruct (byteContent m); auto.
Qed.

(** The members after an [Add]: the literals of the call that are not
    displaced within it, and the old members the call does not displace. *)
Lemma Members_Add (lits : list Literal) (l : literalSet) (m : Literal) :
  wellFormed l ->
  In (Some m) (Members (Add l lits)) <->
  held lits m
  \/ (In (Some m) (Members l)
      /\ forall y, In y lits -> any_eqb (keyOf y) (keyOf m) = false).
Proof.
  revert l; induction lits as [|x lits IH]; intros l Hwf.
  - simpl. split.
    + intros H. right. split; [assumption | intros y []].
    + intros [H|[H _]]; [inversion H | assumption].
  - change (Add l (x :: lits)) with (Add (addliteral l x) lits).
    rewrite (IH _ (wellFormed_addliteral _ _ _ Hwf)).
    rewrite (Members_addliteral l x m Hwf), held_cons. split.
    + intros [H|[[->|[Hin Hx]] Hrest]]; auto.
      right. split; [assumption|]. intros y [<-|Hy]; auto.
    + intros [[[-> H]|H]|[Hin Hall]]; auto.
      right. split; [right; split; [assumption|]|]; intros; apply Hall;
        simpl; auto.
Qed.

Lemma builtFrom_newLiteralSet (hist : list Literal) (l : literalSet) :
  builtFrom hist l -> l = newLiteralSet hist.
Proof.
  induction 1 as [vals|hist l lits H IH]; [reflexivity|].
  rewrite IH. unfold LiteralSets.newLiteralSet, LiteralSets.Add.
  now rewrite fold_left_app.
Qed.

Lemma builtFrom_reachable (hist : list Literal) (l : literalSet) :
  builtFrom hist l -> reachable maphash_Bytes l.
Proof. induction 1; now constructor. Qed.

Lemma reachable_builtFrom (l : literalSet) :
  reachable maphash_Bytes l -> exists hist, builtFrom hist l.
Proof.
  induction 1 as [vals|l lits H [hist IH]].
  - exists vals. constructor.
  - exists (hist ++ lits). now constructor.
Qed.

(** [Members()] lists exactly the literals added and not displaced. *)
Lemma Members_iff_held (hist : list Literal) (l : literalSet) (m : Literal) :
  builtFrom hist l ->
  In (Some m) (Members l) <-> held hist m.
Proof.
  intros H. rewrite (builtFrom_newLiteralSet _ _ H).
  unfold LiteralSets.newLiteralSet.
  change (fold_left addliteral hist []) with (Add [] hist).
  rewrite (Members_Add hist [] m (wellFormed_nil maphash_Bytes)).
  simpl. tauto.
Qed.

(** C1.  For every set, built from the literals [hist] passed so far to
    the constructor and to [Add], and every literal [lit]: [Contains(lit)]
    is true exactly when some member [m], a literal of [hist] that no
    later literal of [hist] has displaced, satisfies [m.Equals(lit)]. *)
Theorem Contains_iff_member (hist : list Literal) (l : literalSet)
    (lit : Literal) :
  builtFrom hist l ->
  Contains l lit = true <->
  exists m, held hist m /\ Equals m (Some lit) = true.
Proof.
  intros Hb.
  pose proof (reachable_wellFormed _ _ (builtFrom_reachable _ _ Hb)) as Hwf.
  split.
  - intros Hc. destruct (member_of_Contains _ _ _ Hc) as (m & Hm & He).
    exists m. split; [|assumption]. now apply (Members_iff_held hist l).
  - intros (m & Hm & He).
    apply (Contains_of_member _ _ m lit Hwf); [|assumption].
    now apply (Members_iff_held hist l).
Qed.

End WithHash.

(** The theorem at a set where one literal was displaced: under
    [lengthHash] the Binary literal and the Fixed literal added after it
    share a key.  The Fixed literal is a member and is contained; the
    Binary literal is no member and is not contained. *)
Lemma Contains_iff_member_witness :
  let hist := [Int32Literal 7; BinaryLiteral [x01]] ++ [FixedLiteral [x02]] in
  let l := Add lengthHash
             (newLiteralSet lengthHash [Int32Literal 7; BinaryLiteral [x01]])
             [FixedLiteral [x02]] in
  builtFrom lengthHash hist l
  /\ held lengthHash hist (FixedLiteral [x02])
  /\ Contains lengthHash l (FixedLiteral [x02]) = true
  /\ ~ held lengthHash hist (BinaryLiteral [x01])
  /\ Contains lengthHash l (BinaryLiteral [x01]) = false.
Proof.
  assert (Hb : builtFrom lengthHash
                 ([Int32Literal 7; BinaryLiteral [x01]]
                    ++ [FixedLiteral [x02]])
                 (Add lengthHash
                    (newLiteralSet lengthHash
                       [Int32Literal 7; BinaryLiteral [x01]])
                    [FixedLiteral [x02]]))
    by (constructor; constructor).
  assert (Hh : held lengthHash
                 ([Int32Literal 7; BinaryLiteral [x01]]
                    ++ [FixedLiteral [x02]]) (FixedLiteral [x02]))
    by (simpl; do 2 apply held_later; apply held_here; intros y []).
  split; [exact Hb|]. split; [exact Hh|]. split; [|split].
  - apply (proj2 (Contains_iff_member lengthHash _ _ (FixedLiteral [x02]) Hb)).
    exists (FixedLiteral [x02]). split; [exact Hh | reflexivity].
  - simpl. intros H. inversion H as [? ? H0|? ? ? H0]; subst.
    inversion H0 as [? ? H1|? ? ? H1]; subst.
    + specialize (H1 (FixedLiteral [x02]) (or_introl eq_refl)).
      discriminate H1.
    + inversion H1 as [|? ? ? H2]; subst. inversion H2.
  - reflexivity.
Defined.

End LiteralSetMembers.
